(** * A table-driven UTF-8 decoder (src/utf8.h), embedded and verified

    The development follows the header: the helper functions of namespace
    [detail] (check, read, write), the two enumerations, the three lookup
    tables, and [utf8::decode] with its two nested while loops.

    The input range [input, end) is represented by the list of code units
    not yet read, so [check] is a test for the empty list and the position
    of an iterator in a buffer is the number of code units in front of it.
    The output iterator is represented by the list of code points written
    so far.  Table look-ups are bounds checked and every read and look-up
    is recorded in a log, so that memory safety and the number of reads
    are statements about a run and not about the shape of the model. *)

From Stdlib Require Import ZArith List Bool Lia.
Import ListNotations.
Local Open Scope Z_scope.

(** ** Machine state, outcomes and the state-and-error monad *)

Inductive table : Type := InitialState | OctetCategory | StateTransition.

Inductive event : Type :=
| Read (octet : Z)
| Lookup (t : table) (index : Z).

Record machine : Type := Machine {
  input : list Z;    (* the code units in [input, end), one-byte values *)
  output : list Z;   (* the code points written through the output iterator *)
  log : list event   (* reads and table accesses, oldest first *)
}.

Inductive outcome (A : Type) : Type :=
| Done (a : A)
| Fault          (* undefined behaviour: index out of range, read at end *)
| OutOfFuel.     (* a loop ran longer than the fuel it was given *)

Arguments Done {A} a.
Arguments Fault {A}.
Arguments OutOfFuel {A}.

Definition M (A : Type) : Type := machine -> outcome (A * machine).

Definition ret {A : Type} (a : A) : M A := fun m => Done (a, m).

Definition bind {A B : Type} (c : M A) (k : A -> M B) : M B :=
  fun m =>
    match c m with
    | Done (a, m') => k a m'
    | Fault => Fault
    | OutOfFuel => OutOfFuel
    end.

Definition out_of_fuel {A : Type} : M A := fun _ => OutOfFuel.

Definition record (e : event) (m : machine) : machine :=
  {| input := input m; output := output m; log := log m ++ [e] |}.

Notation "x <- c ;; k" := (bind c (fun x => k))
  (at level 61, c at next level, right associativity).
Notation "' pat <- c ;; k" := (bind c (fun x => match x with pat => k end))
  (at level 61, pat pattern, c at next level, right associativity).
Notation "c ;;; k" := (bind c (fun _ => k))
  (at level 61, right associativity).

(** ** Fixed-width arithmetic *)

(* static_cast<std::uint8_t> of a one-byte value *)
Definition to_uint8 (x : Z) : Z := x mod 256.

(* reduction to the 32 bits of the type in which char32_t is shifted *)
Definition wrap32 (x : Z) : Z := x mod 4294967296.

(** ** namespace detail *)

Module detail.

(* input != end *)
Definition check : M bool := fun m =>
  match input m with
  | [] => Done (false, m)
  | _ :: _ => Done (true, m)
  end.

(* octet = static_cast<uint8_t>( *input ); ++input; return octet *)
Definition read : M Z := fun m =>
  match input m with
  | [] => Fault
  | x :: rest =>
      let octet := to_uint8 x in
      Done (octet,
            {| input := rest; output := output m;
               log := log m ++ [Read octet] |})
  end.

(* *output = value; ++output *)
Definition write (value : Z) : M unit := fun m =>
  Done (tt, {| input := input m; output := output m ++ [value];
               log := log m |}).

End detail.

(** ** class utf8: enumerations and look-up tables *)

Inductive character_class_t : Type :=
| ILL | ASC | CR1 | CR2 | CR3 | L2A | L3A | L3B | L3C | L4A | L4B | L4C.

Definition class_val (c : character_class_t) : Z :=
  match c with
  | ILL => 0 | ASC => 1 | CR1 => 2 | CR2 => 3
  | CR3 => 4 | L2A => 5 | L3A => 6 | L3B => 7
  | L3C => 8 | L4A => 9 | L4B => 10 | L4C => 11
  end.

Inductive dfa_state_t : Type :=
| BGN | ERR | CS1 | CS2 | CS3 | P3A | P3B | P4A | P4B.

Definition END : dfa_state_t := BGN.

Definition state_val (s : dfa_state_t) : Z :=
  match s with
  | BGN => 0 | ERR => 12
  | CS1 => 24 | CS2 => 36
  | CS3 => 48 | P3A => 60
  | P3B => 72 | P4A => 84
  | P4B => 96
  end.

Definition state_eqb (s t : dfa_state_t) : bool := state_val s =? state_val t.

Module lookup.

Definition initial_state : list (Z * dfa_state_t) :=
  [ (0x02, CS1); (0x03, CS1); (0x04, CS1); (0x05, CS1);
    (0x06, CS1); (0x07, CS1); (0x08, CS1); (0x09, CS1);
    (0x0A, CS1); (0x0B, CS1); (0x0C, CS1); (0x0D, CS1);
    (0x0E, CS1); (0x0F, CS1); (0x10, CS1); (0x11, CS1);
    (0x12, CS1); (0x13, CS1); (0x14, CS1); (0x15, CS1);
    (0x16, CS1); (0x17, CS1); (0x18, CS1); (0x19, CS1);
    (0x1A, CS1); (0x1B, CS1); (0x1C, CS1); (0x1D, CS1);
    (0x1E, CS1); (0x1F, CS1); (0x00, P3A); (0x01, CS2);
    (0x02, CS2); (0x03, CS2); (0x04, CS2); (0x05, CS2);
    (0x06, CS2); (0x07, CS2); (0x08, CS2); (0x09, CS2);
    (0x0A, CS2); (0x0B, CS2); (0x0C, CS2); (0x0D, P3B);
    (0x0E, CS2); (0x0F, CS2); (0x00, P4A); (0x01, CS3);
    (0x02, CS3); (0x03, CS3); (0x04, P4B); (0xF5, ERR);
    (0xF6, ERR); (0xF7, ERR); (0xF8, ERR); (0xF9, ERR);
    (0xFA, ERR); (0xFB, ERR); (0xFC, ERR); (0xFD, ERR);
    (0xFE, ERR); (0xFF, ERR) ].

Definition octet_category : list character_class_t :=
  [ ASC; ASC; ASC; ASC; ASC; ASC; ASC; ASC; ASC; ASC; ASC; ASC; ASC; ASC; ASC; ASC;
    ASC; ASC; ASC; ASC; ASC; ASC; ASC; ASC; ASC; ASC; ASC; ASC; ASC; ASC; ASC; ASC;
    ASC; ASC; ASC; ASC; ASC; ASC; ASC; ASC; ASC; ASC; ASC; ASC; ASC; ASC; ASC; ASC;
    ASC; ASC; ASC; ASC; ASC; ASC; ASC; ASC; ASC; ASC; ASC; ASC; ASC; ASC; ASC; ASC;
    ASC; ASC; ASC; ASC; ASC; ASC; ASC; ASC; ASC; ASC; ASC; ASC; ASC; ASC; ASC; ASC;
    ASC; ASC; ASC; ASC; ASC; ASC; ASC; ASC; ASC; ASC; ASC; ASC; ASC; ASC; ASC; ASC;
    ASC; ASC; ASC; ASC; ASC; ASC; ASC; ASC; ASC; ASC; ASC; ASC; ASC; ASC; ASC; ASC;
    ASC; ASC; ASC; ASC; ASC; ASC; ASC; ASC; ASC; ASC; ASC; ASC; ASC; ASC; ASC; ASC;
    CR1; CR1; CR1; CR1; CR1; CR1; CR1; CR1; CR1; CR1; CR1; CR1; CR1; CR1; CR1; CR1;
    CR2; CR2; CR2; CR2; CR2; CR2; CR2; CR2; CR2; CR2; CR2; CR2; CR2; CR2; CR2; CR2;
    CR3; CR3; CR3; CR3; CR3; CR3; CR3; CR3; CR3; CR3; CR3; CR3; CR3; CR3; CR3; CR3;
    CR3; CR3; CR3; CR3; CR3; CR3; CR3; CR3; CR3; CR3; CR3; CR3; CR3; CR3; CR3; CR3;
    ILL; ILL; L2A; L2A; L2A; L2A; L2A; L2A; L2A; L2A; L2A; L2A; L2A; L2A; L2A; L2A;
    L2A; L2A; L2A; L2A; L2A; L2A; L2A; L2A; L2A; L2A; L2A; L2A; L2A; L2A; L2A; L2A;
    L3A; L3B; L3B; L3B; L3B; L3B; L3B; L3B; L3B; L3B; L3B; L3B; L3B; L3C; L3B; L3B;
    L4A; L4B; L4B; L4B; L4C; ILL; ILL; ILL; ILL; ILL; ILL; ILL; ILL; ILL; ILL; ILL ].

Definition state_transition : list dfa_state_t :=
  [ ERR; END; ERR; ERR; ERR; CS1; P3A; CS2; P3B; P4A; CS3; P4B;
    ERR; ERR; ERR; ERR; ERR; ERR; ERR; ERR; ERR; ERR; ERR; ERR;
    ERR; ERR; END; END; END; ERR; ERR; ERR; ERR; ERR; ERR; ERR;
    ERR; ERR; CS1; CS1; CS1; ERR; ERR; ERR; ERR; ERR; ERR; ERR;
    ERR; ERR; CS2; CS2; CS2; ERR; ERR; ERR; ERR; ERR; ERR; ERR;
    ERR; ERR; ERR; ERR; CS1; ERR; ERR; ERR; ERR; ERR; ERR; ERR;
    ERR; ERR; CS1; CS1; ERR; ERR; ERR; ERR; ERR; ERR; ERR; ERR;
    ERR; ERR; ERR; CS2; CS2; ERR; ERR; ERR; ERR; ERR; ERR; ERR;
    ERR; ERR; CS2; ERR; ERR; ERR; ERR; ERR; ERR; ERR; ERR; ERR ].

(* contents[index], an access outside the array being a [Fault] *)
Definition at_index {A : Type} (t : table) (contents : list A) (index : Z)
  : M A := fun m =>
  if index <? 0 then Fault
  else match nth_error contents (Z.to_nat index) with
       | Some a => Done (a, record (Lookup t index) m)
       | None => Fault
       end.

End lookup.

(** ** utf8::decode *)

Module utf8.

(* code_point = (code_point << 6) | (octet & 0x3F) *)
Definition update_code_point (code_point octet : Z) : Z :=
  Z.lor (wrap32 (Z.shiftl code_point 6)) (Z.land octet 0x3F).

(* while (state > ERR) { ... }, leaving code_point and state; [fuel] bounds
   the number of iterations *)
Fixpoint continuation_loop (fuel : nat) (code_point : Z) (state : dfa_state_t)
  : M (Z * dfa_state_t) :=
  if state_val state >? state_val ERR then
    match fuel with
    | O => out_of_fuel
    | S fuel' =>
        more <- detail.check ;;
        if more then
          octet <- detail.read ;;
          let code_point := update_code_point code_point octet in
          category <- lookup.at_index OctetCategory lookup.octet_category octet ;;
          state <- lookup.at_index StateTransition lookup.state_transition
                     (state_val state + class_val category) ;;
          continuation_loop fuel' code_point state
        else continuation_loop fuel' code_point ERR
    end
  else ret (code_point, state).

(* while (check(input, end)) { ... } return end; an early [return input]
   leaves the loop with the iterator where it stands *)
Fixpoint decode_loop (fuel : nat) : M unit :=
  more <- detail.check ;;
  if more then
    match fuel with
    | O => out_of_fuel
    | S fuel' =>
        octet <- detail.read ;;
        if octet <? 0x80 then
          detail.write octet ;;;
          decode_loop fuel'
        else if octet <? 0xC2 then ret tt
        else
          '(tmp, state) <- lookup.at_index InitialState lookup.initial_state
                             (octet - 0xC2) ;;
          '(code_point, state) <- continuation_loop fuel' tmp state ;;
          if state_eqb state ERR then ret tt
          else
            detail.write code_point ;;;
            decode_loop fuel'
    end
  else ret tt.

(* The iterator returned and the code points written, for the code units
   [units] and an output that starts empty. *)
Definition decode (units : list Z) : outcome machine :=
  match decode_loop (S (length units))
          {| input := units; output := []; log := [] |} with
  | Done (_, m) => Done m
  | Fault => Fault
  | OutOfFuel => OutOfFuel
  end.

End utf8.

(* The position of the iterator of [m] in the buffer [units]. *)
Definition position (units : list Z) (m : machine) : nat :=
  (length units - length (input m))%nat.

(** ** The automaton read off the tables

    Total versions of the three table accesses (with a default outside the
    array), the transition function they define, and the inner loop of
    [decode] as a function of the code units in front of the iterator. *)

Definition initial_entry (octet : Z) : Z * dfa_state_t :=
  nth (Z.to_nat (octet - 0xC2)) lookup.initial_state (0, ERR).

Definition category_of (octet : Z) : character_class_t :=
  nth (Z.to_nat octet) lookup.octet_category ILL.

Definition transition (state : dfa_state_t) (octet : Z) : dfa_state_t :=
  nth (Z.to_nat (state_val state + class_val (category_of octet)))
      lookup.state_transition ERR.

(* One more octet offered to the automaton; nothing is accepted once the
   state is no longer above ERR. *)
Definition advance (state : dfa_state_t) (octet : Z) : dfa_state_t :=
  if state_val state >? state_val ERR then transition state octet else ERR.

Definition run (state : dfa_state_t) (octets : list Z) : dfa_state_t :=
  fold_left advance octets state.

Definition accumulate (code_point : Z) (octets : list Z) : Z :=
  fold_left utf8.update_code_point octets code_point.

(* The inner loop: the iterator, code point and state it leaves. *)
Fixpoint continuation (units : list Z) (code_point : Z) (state : dfa_state_t)
  : list Z * Z * dfa_state_t :=
  if state_val state >? state_val ERR then
    match units with
    | [] => ([], code_point, ERR)
    | x :: rest =>
        continuation rest (utf8.update_code_point code_point (to_uint8 x))
                     (transition state (to_uint8 x))
    end
  else (units, code_point, state).

(* The reads and look-ups of the inner loop. *)
Fixpoint continuation_events (units : list Z) (state : dfa_state_t)
  : list event :=
  if state_val state >? state_val ERR then
    match units with
    | [] => []
    | x :: rest =>
        Read (to_uint8 x)
        :: Lookup OctetCategory (to_uint8 x)
        :: Lookup StateTransition
             (state_val state + class_val (category_of (to_uint8 x)))
        :: continuation_events rest (transition state (to_uint8 x))
    end
  else [].

(* One pass through the body of the outer loop, for the code unit [x] just
   in front of the iterator and the code units [rest] behind it. *)
Inductive pass : Type :=
| Emit (code_point : Z) (rest : list Z)   (* written, loop continues *)
| Stop (rest : list Z).                   (* return input *)

Definition remainder (p : pass) : list Z :=
  match p with
  | Emit _ r => r
  | Stop r => r
  end.

Definition sequence (x : Z) (rest : list Z) : pass :=
  let octet := to_uint8 x in
  if octet <? 0x80 then Emit octet rest
  else if octet <? 0xC2 then Stop rest
  else
    let '(tmp, state) := initial_entry octet in
    let '(r, code_point, state) := continuation rest tmp state in
    if state_eqb state ERR then Stop r else Emit code_point r.

Definition sequence_events (x : Z) (rest : list Z) : list event :=
  let octet := to_uint8 x in
  if octet <? 0x80 then [Read octet]
  else if octet <? 0xC2 then [Read octet]
  else Read octet :: Lookup InitialState (octet - 0xC2)
       :: continuation_events rest (snd (initial_entry octet)).

(* [decoding units emitted rest]: started on [units], the outer loop writes
   [emitted] and returns with [rest] in front of the iterator. *)
Inductive decoding : list Z -> list Z -> list Z -> Prop :=
| decoding_end : decoding [] [] []
| decoding_stop x rest r :
    sequence x rest = Stop r -> decoding (x :: rest) [] r
| decoding_emit x rest code_point r emitted r' :
    sequence x rest = Emit code_point r ->
    decoding r emitted r' ->
    decoding (x :: rest) (code_point :: emitted) r'.

(** ** Unicode scalar values and the reference encoder

    The encoder is not part of the repository; it is the bit distribution
    of the Unicode Standard (table 3-6), against which the round trip is
    stated. *)

Definition is_scalar (v : Z) : Prop :=
  0 <= v <= 0x10FFFF /\ ~ (0xD800 <= v <= 0xDFFF).

Definition encode_ref (v : Z) : list Z :=
  if v <? 0x80 then [v]
  else if v <? 0x800 then
    [ Z.lor 0xC0 (Z.shiftr v 6);
      Z.lor 0x80 (Z.land v 0x3F) ]
  else if v <? 0x10000 then
    [ Z.lor 0xE0 (Z.shiftr v 12);
      Z.lor 0x80 (Z.land (Z.shiftr v 6) 0x3F);
      Z.lor 0x80 (Z.land v 0x3F) ]
  else
    [ Z.lor 0xF0 (Z.shiftr v 18);
      Z.lor 0x80 (Z.land (Z.shiftr v 12) 0x3F);
      Z.lor 0x80 (Z.land (Z.shiftr v 6) 0x3F);
      Z.lor 0x80 (Z.land v 0x3F) ].

(* [p] begins some well-formed sequence *)
Definition valid_prefix (p : list Z) : Prop :=
  exists v suffix, is_scalar v /\ encode_ref v = p ++ suffix.

(* [p] begins some well-formed sequence and is not yet all of it *)
Definition incomplete (p : list Z) : Prop :=
  exists v suffix, is_scalar v /\ suffix <> [] /\ encode_ref v = p ++ suffix.

(* [bad] stops being the beginning of a well-formed sequence exactly at its
   last octet, the offending one *)
Definition ill_formed (bad : list Z) : Prop :=
  exists p x, bad = p ++ [x] /\ incomplete p /\ ~ valid_prefix (p ++ [x]).

(** ** Closed forms of the tables (table 3-7 of the Unicode Standard) *)

Definition between (lo hi x : Z) : bool := (lo <=? x) && (x <=? hi).

Definition closed_initial (octet : Z) : Z * dfa_state_t :=
  if octet <=? 0xDF then (octet - 0xC0, CS1)
  else if octet =? 0xE0 then (0, P3A)
  else if octet =? 0xED then (0x0D, P3B)
  else if octet <=? 0xEF then (octet - 0xE0, CS2)
  else if octet =? 0xF0 then (0, P4A)
  else if octet <=? 0xF3 then (octet - 0xF0, CS3)
  else if octet =? 0xF4 then (4, P4B)
  else (octet, ERR).

Definition closed_transition (state : dfa_state_t) (octet : Z) : dfa_state_t :=
  match state with
  | CS1 => if between 0x80 0xBF octet then END else ERR
  | CS2 => if between 0x80 0xBF octet then CS1 else ERR
  | CS3 => if between 0x80 0xBF octet then CS2 else ERR
  | P3A => if between 0xA0 0xBF octet then CS1 else ERR
  | P3B => if between 0x80 0x9F octet then CS1 else ERR
  | P4A => if between 0x90 0xBF octet then CS2 else ERR
  | P4B => if between 0x80 0x8F octet then CS2 else ERR
  | BGN | ERR => ERR
  end.

(* The continuation octets that take [state] to END: the rows of table 3-7
   behind their leading octet. *)
Definition trailing (lo hi : Z) (c : Z) : Prop := lo <= c <= hi.

Definition completes (state : dfa_state_t) (octets : list Z) : Prop :=
  match state, octets with
  | CS1, [c1] => trailing 0x80 0xBF c1
  | CS2, [c1; c2] => trailing 0x80 0xBF c1 /\ trailing 0x80 0xBF c2
  | P3A, [c1; c2] => trailing 0xA0 0xBF c1 /\ trailing 0x80 0xBF c2
  | P3B, [c1; c2] => trailing 0x80 0x9F c1 /\ trailing 0x80 0xBF c2
  | CS3, [c1; c2; c3] =>
      trailing 0x80 0xBF c1 /\ trailing 0x80 0xBF c2 /\ trailing 0x80 0xBF c3
  | P4A, [c1; c2; c3] =>
      trailing 0x90 0xBF c1 /\ trailing 0x80 0xBF c2 /\ trailing 0x80 0xBF c3
  | P4B, [c1; c2; c3] =>
      trailing 0x80 0x8F c1 /\ trailing 0x80 0xBF c2 /\ trailing 0x80 0xBF c3
  | _, _ => False
  end.

(* Some octets that complete a sequence left in [state]. *)
Definition completion (state : dfa_state_t) : list Z :=
  match state with
  | CS1 => [0x80]
  | CS2 => [0x80; 0x80]
  | CS3 => [0x80; 0x80; 0x80]
  | P3A => [0xA0; 0x80]
  | P3B => [0x80; 0x80]
  | P4A => [0x90; 0x80; 0x80]
  | P4B => [0x80; 0x80; 0x80]
  | BGN | ERR => []
  end.

(* [p] holds for every integer below [n] *)
Fixpoint all_below (n : nat) (p : Z -> bool) : bool :=
  match n with
  | O => true
  | S k => p (Z.of_nat k) && all_below k p
  end.

Definition entry_eqb (a b : Z * dfa_state_t) : bool :=
  (fst a =? fst b) && state_eqb (snd a) (snd b).

(* what a single log entry must satisfy for the access to be inside its
   array *)
Definition in_bounds (e : event) : Prop :=
  match e with
  | Read octet => 0 <= octet <= 255
  | Lookup InitialState index =>
      exists octet, 0xC2 <= octet <= 0xFF /\ index = octet - 0xC2 /\
                    0 <= index < 62
  | Lookup OctetCategory index => 0 <= index <= 255
  | Lookup StateTransition index =>
      exists state category,
        index = state_val state + class_val category /\
        In (state_val state) [24; 36; 48; 60; 72; 84; 96] /\
        0 <= class_val category <= 11 /\
        0 <= index <= 107
  end.

(* the octets read, in the order of the log *)
Definition reads (l : list event) : list Z :=
  flat_map (fun e => match e with Read o => [o] | Lookup _ _ => [] end) l.

(* the fewest code units that can stand behind one written code point: one
   for an ASCII octet, two for anything written after the inner loop *)
Definition least_units (code_point : Z) : nat :=
  if code_point <? 0x80 then 1%nat else 2%nat.

(* the continuation octets a state still waits for *)
Definition pending (state : dfa_state_t) : nat :=
  match state with
  | BGN | ERR => 0%nat
  | CS1 => 1%nat
  | CS2 | P3A | P3B => 2%nat
  | CS3 | P4A | P4B => 3%nat
  end.

(* what the code point may be at most, exclusively, in a state, for the
   octets still to come to leave it below 2^21 *)
Definition headroom (state : dfa_state_t) : Z :=
  match pending state with
  | 0%nat => 2 ^ 21
  | 1%nat => 2 ^ 15
  | 2%nat => 2 ^ 9
  | _ => 2 ^ 3
  end.

(* a look-up whose array element is the state ERR: the tables rejecting *)
Definition yields_ERR (e : event) : Prop :=
  match e with
  | Lookup InitialState index =>
      exists tmp,
        nth_error lookup.initial_state (Z.to_nat index) = Some (tmp, ERR)
  | Lookup StateTransition index =>
      nth_error lookup.state_transition (Z.to_nat index) = Some ERR
  | _ => False
  end.

(** * Properties *)

(** ** Sizes and values of the tables *)

Lemma initial_state_length : length lookup.initial_state = 62%nat.
Proof. reflexivity. Qed.

Lemma octet_category_length : length lookup.octet_category = 256%nat.
Proof. reflexivity. Qed.

Lemma state_transition_length : length lookup.state_transition = 108%nat.
Proof. reflexivity. Qed.

Lemma class_val_range (c : character_class_t) : 0 <= class_val c <= 11.
Proof. destruct c; simpl; lia. Qed.

Lemma state_val_range (s : dfa_state_t) : 0 <= state_val s <= 96.
Proof. destruct s; simpl; lia. Qed.

Lemma state_val_inj (s t : dfa_state_t) : state_val s = state_val t -> s = t.
Proof. destruct s, t; simpl; intros H; try reflexivity; discriminate H. Qed.

Lemma state_eqb_eq (s t : dfa_state_t) : state_eqb s t = true <-> s = t.
Proof.
  unfold state_eqb. rewrite Z.eqb_eq. split.
  - apply state_val_inj.
  - intros ->. reflexivity.
Qed.

Lemma state_above_ERR (s : dfa_state_t) :
  state_val ERR < state_val s ->
  In (state_val s) [24; 36; 48; 60; 72; 84; 96].
Proof. destruct s; simpl; intros H; try lia; tauto. Qed.

Lemma all_below_spec (n : nat) (p : Z -> bool) :
  all_below n p = true -> forall z, 0 <= z < Z.of_nat n -> p z = true.
Proof.
  induction n as [|k IH]; simpl; intros H z Hz.
  - lia.
  - apply andb_true_iff in H. destruct H as [Hk Hrest].
    destruct (Z.eq_dec z (Z.of_nat k)) as [->|Hne].
    + exact Hk.
    + apply IH; [exact Hrest | lia].
Qed.

Lemma to_uint8_range (x : Z) : 0 <= to_uint8 x < 256.
Proof. unfold to_uint8. apply Z.mod_pos_bound. lia. Qed.

Lemma to_uint8_small (x : Z) : 0 <= x < 256 -> to_uint8 x = x.
Proof. intros H. unfold to_uint8. apply Z.mod_small. exact H. Qed.

Lemma initial_entry_closed (octet : Z) :
  0xC2 <= octet <= 0xFF -> initial_entry octet = closed_initial octet.
Proof.
  intros H.
  assert (Hall : all_below 256 (fun z =>
            if 0xC2 <=? z
            then entry_eqb (initial_entry z) (closed_initial z)
            else true) = true) by (vm_compute; reflexivity).
  pose proof (all_below_spec _ _ Hall octet) as Hz. cbv beta in Hz.
  replace (0xC2 <=? octet) with true in Hz by (symmetry; apply Z.leb_le; lia).
  assert (Hin : 0 <= octet < Z.of_nat 256) by lia.
  specialize (Hz Hin). unfold entry_eqb in Hz.
  apply andb_true_iff in Hz. destruct Hz as [H1 H2].
  apply Z.eqb_eq in H1. apply state_eqb_eq in H2.
  destruct (initial_entry octet), (closed_initial octet); simpl in *.
  congruence.
Qed.

Lemma transition_closed (state : dfa_state_t) (octet : Z) :
  state_val ERR < state_val state -> 0 <= octet < 256 ->
  transition state octet = closed_transition state octet.
Proof.
  intros Hs Ho.
  assert (Hall : forall s, state_val ERR < state_val s ->
            all_below 256 (fun z =>
              state_eqb (transition s z) (closed_transition s z)) = true).
  { intros s H. destruct s; simpl in H; try lia; vm_compute; reflexivity. }
  pose proof (all_below_spec _ _ (Hall state Hs) octet) as Hz.
  cbv beta in Hz. apply state_eqb_eq. apply Hz. lia.
Qed.

(** ** The loops, unfolded *)

Lemma at_index_in_range {A : Type} (t : table) (contents : list A)
      (index : Z) (d : A) (m : machine) :
  0 <= index < Z.of_nat (length contents) ->
  lookup.at_index t contents index m
  = Done (nth (Z.to_nat index) contents d, record (Lookup t index) m).
Proof.
  intros H. unfold lookup.at_index.
  destruct (index <? 0) eqn:Hneg; [apply Z.ltb_lt in Hneg; lia|].
  assert (Hlt : (Z.to_nat index < length contents)%nat) by lia.
  rewrite (nth_error_nth' contents d Hlt). reflexivity.
Qed.

Lemma continuation_loop_exit (fuel : nat) (cp : Z) (s : dfa_state_t)
      (m : machine) :
  state_val s <= state_val ERR ->
  utf8.continuation_loop fuel cp s m = Done ((cp, s), m).
Proof.
  intros H. destruct fuel; simpl;
    (destruct (state_val s >? 12) eqn:E; [apply Z.gtb_lt in E; simpl in H; lia|]);
    reflexivity.
Qed.

(* An iteration of the inner loop at the end of the input: the state is set
   to ERR and the loop is left, nothing is read. *)
Lemma continuation_loop_at_end (fuel : nat) (cp : Z) (s : dfa_state_t)
      (out : list Z) (lg : list event) :
  state_val ERR < state_val s ->
  utf8.continuation_loop (S fuel) cp s (Machine [] out lg)
  = Done ((cp, ERR), Machine [] out lg).
Proof.
  intros Hs.
  assert (E : (state_val s >? 12) = true) by (apply Z.gtb_lt; simpl in Hs; lia).
  simpl. rewrite E. unfold bind, detail.check. simpl.
  apply continuation_loop_exit. simpl. lia.
Qed.

(* An iteration of the inner loop with input left: one code unit is read,
   then the two tables are consulted. *)
Lemma continuation_loop_read (fuel : nat) (cp : Z) (s : dfa_state_t)
      (x : Z) (rest out : list Z) (lg : list event) :
  state_val ERR < state_val s ->
  utf8.continuation_loop (S fuel) cp s (Machine (x :: rest) out lg)
  = utf8.continuation_loop fuel
      (utf8.update_code_point cp (to_uint8 x)) (transition s (to_uint8 x))
      (Machine rest out
         (lg ++ [Read (to_uint8 x); Lookup OctetCategory (to_uint8 x);
                 Lookup StateTransition
                   (state_val s + class_val (category_of (to_uint8 x)))])).
Proof.
  intros Hs.
  assert (E : (state_val s >? 12) = true) by (apply Z.gtb_lt; simpl in Hs; lia).
  simpl utf8.continuation_loop.
  rewrite E. unfold bind, detail.check, detail.read. cbn [input output log].
  pose proof (to_uint8_range x) as Hx.
  rewrite (at_index_in_range OctetCategory lookup.octet_category
             (to_uint8 x) ILL)
    by (rewrite octet_category_length; lia).
  fold (category_of (to_uint8 x)).
  pose proof (class_val_range (category_of (to_uint8 x))) as Hc.
  pose proof (state_val_range s) as Hr.
  rewrite (at_index_in_range StateTransition lookup.state_transition _ ERR)
    by (rewrite state_transition_length; lia).
  fold (transition s (to_uint8 x)).
  unfold record. cbn [input output log].
  repeat rewrite <- app_assoc. reflexivity.
Qed.

Lemma continuation_loop_eq (fuel : nat) :
  forall units cp s out lg,
    (length units < fuel)%nat ->
    utf8.continuation_loop fuel cp s (Machine units out lg)
    = let '(r, cp', s') := continuation units cp s in
      Done ((cp', s'), Machine r out (lg ++ continuation_events units s)).
Proof.
  induction fuel as [|fuel IH]; intros units cp s out lg Hlen; [lia|].
  destruct (Z_le_gt_dec (state_val s) (state_val ERR)) as [Hle|Hgt].
  - rewrite continuation_loop_exit by exact Hle.
    destruct units; simpl;
      (destruct (state_val s >? 12) eqn:E; [apply Z.gtb_lt in E; simpl in Hle; lia|]);
      rewrite app_nil_r; reflexivity.
  - assert (E : (state_val s >? 12) = true) by (apply Z.gtb_lt; simpl in Hgt; lia).
    destruct units as [|x rest].
    + rewrite continuation_loop_at_end by lia.
      simpl. rewrite E, app_nil_r. reflexivity.
    + rewrite continuation_loop_read by lia.
      simpl continuation. simpl continuation_events. rewrite E.
      rewrite IH by (simpl in Hlen; lia).
      destruct (continuation rest _ _) as [[r cp'] s'].
      repeat rewrite <- app_assoc. reflexivity.
Qed.

Lemma decode_loop_nil (fuel : nat) (out : list Z) (lg : list event) :
  utf8.decode_loop fuel (Machine [] out lg) = Done (tt, Machine [] out lg).
Proof. destruct fuel; reflexivity. Qed.

Lemma decode_loop_eq (fuel : nat) (x : Z) (rest out : list Z)
      (lg : list event) :
  (length rest < fuel)%nat ->
  utf8.decode_loop (S fuel) (Machine (x :: rest) out lg)
  = match sequence x rest with
    | Emit cp r =>
        utf8.decode_loop fuel
          (Machine r (out ++ [cp]) (lg ++ sequence_events x rest))
    | Stop r => Done (tt, Machine r out (lg ++ sequence_events x rest))
    end.
Proof.
  intros Hlen. unfold sequence, sequence_events.
  simpl utf8.decode_loop. unfold bind at 1. unfold detail.check at 1.
  cbn [input]. unfold bind at 1. unfold detail.read at 1.
  cbn [input output log]. cbv zeta.
  pose proof (to_uint8_range x) as Hx.
  destruct (to_uint8 x <? 128) eqn:Hascii.
  - unfold bind at 1. unfold detail.write. simpl. reflexivity.
  - destruct (to_uint8 x <? 194) eqn:Hlead.
    + reflexivity.
    + apply Z.ltb_ge in Hlead.
      unfold bind at 1.
      rewrite (at_index_in_range InitialState lookup.initial_state _ (0, ERR))
        by (rewrite initial_state_length; lia).
      fold (initial_entry (to_uint8 x)).
      destruct (initial_entry (to_uint8 x)) as [tmp s0] eqn:Hentry.
      unfold bind at 1. unfold record. cbn [input output log].
      rewrite continuation_loop_eq by exact Hlen.
      simpl snd.
      destruct (continuation rest tmp s0) as [[r cp] s].
      destruct (state_eqb s ERR).
      * unfold ret. repeat rewrite <- app_assoc. reflexivity.
      * unfold bind, detail.write. simpl.
        repeat rewrite <- app_assoc. reflexivity.
Qed.

(** ** What one pass reads and looks up *)

Lemma reads_app (l1 l2 : list event) : reads (l1 ++ l2) = reads l1 ++ reads l2.
Proof. unfold reads. apply flat_map_app. Qed.

Lemma continuation_consumes (units : list Z) :
  forall cp s,
  exists consumed,
    units = consumed ++ fst (fst (continuation units cp s)) /\
    reads (continuation_events units s) = map to_uint8 consumed /\
    Forall in_bounds (continuation_events units s).
Proof.
  induction units as [|x rest IH]; intros cp s; simpl.
  - exists []. destruct (state_val s >? 12); simpl; auto.
  - destruct (state_val s >? 12) eqn:E.
    + destruct (IH (utf8.update_code_point cp (to_uint8 x))
                   (transition s (to_uint8 x))) as (c & Hc & Hr & Hb).
      exists (x :: c). split; [simpl; rewrite <- Hc; reflexivity|].
      split; [simpl; rewrite <- Hr; reflexivity|].
      pose proof (to_uint8_range x) as Hx.
      apply Z.gtb_lt in E.
      repeat constructor; simpl; try lia; try exact Hb.
      exists s, (category_of (to_uint8 x)).
      pose proof (class_val_range (category_of (to_uint8 x))) as Hcat.
      pose proof (state_val_range s) as Hs.
      repeat split; try lia.
      apply state_above_ERR. simpl. lia.
    + exists []. simpl. auto.
Qed.

Lemma sequence_consumes (x : Z) (rest : list Z) :
  exists consumed,
    x :: rest = (x :: consumed) ++ remainder (sequence x rest) /\
    reads (sequence_events x rest) = map to_uint8 (x :: consumed) /\
    Forall in_bounds (sequence_events x rest).
Proof.
  unfold sequence, sequence_events.
  pose proof (to_uint8_range x) as Hx.
  destruct (to_uint8 x <? 128) eqn:Hascii.
  - exists []. simpl. repeat constructor; simpl; lia.
  - destruct (to_uint8 x <? 194) eqn:Hlead.
    + exists []. simpl. repeat constructor; simpl; lia.
    + apply Z.ltb_ge in Hlead.
      destruct (initial_entry (to_uint8 x)) as [tmp s0] eqn:Hentry. simpl snd.
      destruct (continuation_consumes rest tmp s0) as (c & Hc & Hr & Hb).
      exists c.
      destruct (continuation rest tmp s0) as [[r cp] s]. simpl in Hc.
      split; [destruct (state_eqb s ERR); simpl; rewrite <- Hc; reflexivity|].
      split; [simpl; rewrite <- Hr; reflexivity|].
      repeat constructor; simpl; try lia; try exact Hb.
      exists (to_uint8 x). lia.
Qed.

(** ** The outer loop terminates and follows [decoding] *)

Lemma decode_loop_run (fuel : nat) :
  forall units out lg,
    (length units < fuel)%nat ->
    exists emitted consumed r evs,
      utf8.decode_loop fuel (Machine units out lg)
      = Done (tt, Machine r (out ++ emitted) (lg ++ evs)) /\
      decoding units emitted r /\
      units = consumed ++ r /\
      reads evs = map to_uint8 consumed /\
      Forall in_bounds evs.
Proof.
  induction fuel as [|fuel IH]; intros units out lg Hlen; [lia|].
  destruct units as [|x rest].
  - exists [], [], [], []. rewrite decode_loop_nil, !app_nil_r.
    repeat split; constructor.
  - simpl in Hlen. rewrite decode_loop_eq by lia.
    destruct (sequence_consumes x rest) as (c & Hc & Hr & Hb).
    destruct (sequence x rest) as [cp r|r] eqn:Hseq; simpl in Hc.
    + assert (Hlr : (length r < fuel)%nat).
      { apply (f_equal (@length Z)) in Hc. simpl in Hc.
        rewrite length_app in Hc. lia. }
      destruct (IH r (out ++ [cp]) (lg ++ sequence_events x rest) Hlr)
        as (em & c' & r' & evs & Hrun & Hdec & Hsplit & Hreads & Hbounds).
      exists (cp :: em), ((x :: c) ++ c'), r', (sequence_events x rest ++ evs).
      rewrite Hrun. repeat rewrite <- app_assoc. simpl.
      split; [reflexivity|].
      split; [eapply decoding_emit; eassumption|].
      split; [rewrite Hc, Hsplit; reflexivity|].
      split; [rewrite reads_app, Hr, Hreads; simpl; rewrite map_app;
              reflexivity|].
      apply Forall_app. split; assumption.
    + exists [], (x :: c), r, (sequence_events x rest).
      rewrite app_nil_r.
      split; [reflexivity|].
      split; [apply decoding_stop; exact Hseq|].
      split; [exact Hc|]. split; assumption.
Qed.

Lemma decoding_functional (units e1 r1 : list Z) :
  decoding units e1 r1 ->
  forall e2 r2, decoding units e2 r2 -> e1 = e2 /\ r1 = r2.
Proof.
  induction 1 as [|x rest r Hs|x rest cp r em r' Hs Hd IH];
    intros e2 r2 H2; inversion H2; subst; try congruence.
  - split; reflexivity.
  - split; congruence.
  - match goal with
    | Ha : sequence x rest = Emit _ _, Hb : sequence x rest = Emit _ _ |- _ =>
        rewrite Ha in Hb; injection Hb as ? ?; subst
    end.
    match goal with
    | Hd' : decoding _ _ r2 |- _ => destruct (IH _ _ Hd') as [-> ->]
    end.
    split; reflexivity.
Qed.

(* [decode] always returns, and what it returns is described by [decoding]. *)
Lemma decode_decoding (units : list Z) :
  exists m,
    utf8.decode units = Done m /\
    decoding units (output m) (input m) /\
    exists consumed,
      units = consumed ++ input m /\
      reads (log m) = map to_uint8 consumed /\
      Forall in_bounds (log m).
Proof.
  unfold utf8.decode.
  destruct (decode_loop_run (S (length units)) units [] [] (Nat.lt_succ_diag_r _))
    as (em & c & r & evs & Hrun & Hdec & Hsplit & Hreads & Hbounds).
  rewrite Hrun. simpl. eexists. split; [reflexivity|]. simpl.
  split; [exact Hdec|]. exists c. auto.
Qed.

Lemma decode_of_decoding (units emitted r : list Z) :
  decoding units emitted r ->
  exists m, utf8.decode units = Done m /\ output m = emitted /\ input m = r.
Proof.
  intros H. destruct (decode_decoding units) as (m & Hm & Hd & _).
  exists m. destruct (decoding_functional _ _ _ Hd _ _ H) as [-> ->]. auto.
Qed.

(** ** Shifts and masks as arithmetic *)

Lemma land_high_low (a r n : Z) :
  0 <= n -> 0 <= r < 2 ^ n -> Z.land (a * 2 ^ n) r = 0.
Proof.
  intros Hn Hr. apply Z.bits_inj'. intros i Hi.
  rewrite Z.land_spec, Z.bits_0.
  destruct (Z_lt_ge_dec i n) as [Hlt|Hge].
  - rewrite Z.mul_pow2_bits_low by lia. reflexivity.
  - rewrite <- (Z.mod_small r (2 ^ n)) by lia.
    rewrite Z.mod_pow2_bits_high by lia. apply andb_false_r.
Qed.

Lemma lor_disjoint (a r n : Z) :
  0 <= n -> 0 <= r < 2 ^ n -> Z.lor (a * 2 ^ n) r = a * 2 ^ n + r.
Proof.
  intros Hn Hr. pose proof (Z.add_lor_land (a * 2 ^ n) r) as H.
  rewrite land_high_low in H by assumption. lia.
Qed.

Lemma land_63 (x : Z) : Z.land x 0x3F = x mod 64.
Proof. change 0x3F with (Z.ones 6). rewrite Z.land_ones by lia. reflexivity. Qed.

Lemma update_code_point_arith (cp o : Z) :
  0 <= cp < 2 ^ 26 ->
  utf8.update_code_point cp o = cp * 64 + o mod 64.
Proof.
  intros H. unfold utf8.update_code_point, wrap32.
  rewrite Z.shiftl_mul_pow2 by lia. rewrite land_63.
  rewrite Z.mod_small by lia.
  apply (lor_disjoint cp (o mod 64) 6); [lia|].
  apply Z.mod_pos_bound. lia.
Qed.

Lemma lor_0x80 (x : Z) : 0 <= x < 64 -> Z.lor 0x80 x = 0x80 + x.
Proof. intros H. apply (lor_disjoint 2 x 6); lia. Qed.

Lemma lor_0xC0 (x : Z) : 0 <= x < 32 -> Z.lor 0xC0 x = 0xC0 + x.
Proof. intros H. apply (lor_disjoint 6 x 5); lia. Qed.

Lemma lor_0xE0 (x : Z) : 0 <= x < 16 -> Z.lor 0xE0 x = 0xE0 + x.
Proof. intros H. apply (lor_disjoint 14 x 4); lia. Qed.

Lemma lor_0xF0 (x : Z) : 0 <= x < 8 -> Z.lor 0xF0 x = 0xF0 + x.
Proof. intros H. apply (lor_disjoint 30 x 3); lia. Qed.

Lemma encode_ref_1 (v : Z) : v < 0x80 -> encode_ref v = [v].
Proof.
  intros H. unfold encode_ref.
  destruct (v <? 128) eqn:E; [reflexivity | apply Z.ltb_ge in E; lia].
Qed.

Lemma encode_ref_2 (v : Z) :
  0x80 <= v < 0x800 -> encode_ref v = [0xC0 + v / 64; 0x80 + v mod 64].
Proof.
  intros H. unfold encode_ref.
  destruct (v <? 128) eqn:E1; [apply Z.ltb_lt in E1; lia|].
  destruct (v <? 2048) eqn:E2; [|apply Z.ltb_ge in E2; lia].
  rewrite land_63, Z.shiftr_div_pow2 by lia. change (2 ^ 6) with 64.
  rewrite lor_0xC0, lor_0x80; [reflexivity| |];
    Z.to_euclidean_division_equations; lia.
Qed.

Lemma encode_ref_3 (v : Z) :
  0x800 <= v < 0x10000 ->
  encode_ref v = [0xE0 + v / 4096; 0x80 + (v / 64) mod 64; 0x80 + v mod 64].
Proof.
  intros H. unfold encode_ref.
  destruct (v <? 128) eqn:E1; [apply Z.ltb_lt in E1; lia|].
  destruct (v <? 2048) eqn:E2; [apply Z.ltb_lt in E2; lia|].
  destruct (v <? 65536) eqn:E3; [|apply Z.ltb_ge in E3; lia].
  rewrite !land_63, !Z.shiftr_div_pow2 by lia.
  change (2 ^ 6) with 64. change (2 ^ 12) with 4096.
  rewrite lor_0xE0, !lor_0x80; [reflexivity| | |];
    Z.to_euclidean_division_equations; lia.
Qed.

Lemma encode_ref_4 (v : Z) :
  0x10000 <= v < 0x200000 ->
  encode_ref v = [0xF0 + v / 262144; 0x80 + (v / 4096) mod 64;
                  0x80 + (v / 64) mod 64; 0x80 + v mod 64].
Proof.
  intros H. unfold encode_ref.
  destruct (v <? 128) eqn:E1; [apply Z.ltb_lt in E1; lia|].
  destruct (v <? 2048) eqn:E2; [apply Z.ltb_lt in E2; lia|].
  destruct (v <? 65536) eqn:E3; [apply Z.ltb_lt in E3; lia|].
  rewrite !land_63, !Z.shiftr_div_pow2 by lia.
  change (2 ^ 6) with 64. change (2 ^ 12) with 4096.
  change (2 ^ 18) with 262144.
  rewrite lor_0xF0, !lor_0x80; [reflexivity| | | |];
    Z.to_euclidean_division_equations; lia.
Qed.

(** ** The automaton in closed form *)

Lemma category_outside (c : Z) :
  ~ (0 <= c < 256) -> category_of c = ASC \/ category_of c = ILL.
Proof.
  intros H. unfold category_of.
  destruct (Z_lt_ge_dec c 0) as [Hneg|Hpos].
  - left. destruct c; try lia. reflexivity.
  - right. apply nth_overflow. rewrite octet_category_length. lia.
Qed.

Lemma advance_closed (s : dfa_state_t) (c : Z) :
  advance s c = closed_transition s c.
Proof.
  unfold advance.
  destruct (state_val s >? state_val ERR) eqn:E.
  - apply Z.gtb_lt in E.
    destruct (Z_lt_ge_dec c 0) as [Hneg|Hpos];
      [|destruct (Z_lt_ge_dec c 256) as [Hlt|Hge]].
    + destruct (category_outside c ltac:(lia)) as [Hc|Hc];
        unfold transition; rewrite Hc;
        destruct s; simpl in E; try lia; simpl; unfold between;
        (replace (c <=? 191) with true by (symmetry; apply Z.leb_le; lia));
        (replace (c <=? 159) with true by (symmetry; apply Z.leb_le; lia));
        (replace (c <=? 143) with true by (symmetry; apply Z.leb_le; lia));
        (replace (128 <=? c) with false by (symmetry; apply Z.leb_gt; lia));
        (replace (160 <=? c) with false by (symmetry; apply Z.leb_gt; lia));
        (replace (144 <=? c) with false by (symmetry; apply Z.leb_gt; lia));
        reflexivity.
    + apply transition_closed; lia.
    + destruct (category_outside c ltac:(lia)) as [Hc|Hc];
        unfold transition; rewrite Hc;
        destruct s; simpl in E; try lia; simpl; unfold between;
        (replace (c <=? 191) with false by (symmetry; apply Z.leb_gt; lia));
        (replace (c <=? 159) with false by (symmetry; apply Z.leb_gt; lia));
        (replace (c <=? 143) with false by (symmetry; apply Z.leb_gt; lia));
        rewrite ?andb_false_r; reflexivity.
  - rewrite Z.gtb_ltb in E. apply Z.ltb_ge in E.
    destruct s; simpl in E; try lia; reflexivity.
Qed.

Lemma run_cons (s : dfa_state_t) (c : Z) (cs : list Z) :
  run s (c :: cs) = run (closed_transition s c) cs.
Proof. unfold run. simpl. rewrite advance_closed. reflexivity. Qed.

Lemma run_app (s : dfa_state_t) (a b : list Z) :
  run s (a ++ b) = run (run s a) b.
Proof. unfold run. apply fold_left_app. Qed.

Lemma run_ERR (cs : list Z) : run ERR cs = ERR.
Proof. induction cs as [|c cs IH]; [reflexivity|]. rewrite run_cons. exact IH. Qed.

Lemma run_stuck (s : dfa_state_t) (cs : list Z) :
  state_val s <= state_val ERR -> cs <> [] -> run s cs = ERR.
Proof.
  intros Hs Hcs. destruct cs as [|c cs]; [congruence|].
  rewrite run_cons.
  destruct s; simpl in Hs; try lia; simpl; apply run_ERR.
Qed.

Lemma run_above (s : dfa_state_t) (cs : list Z) :
  state_val ERR < state_val (run s cs) -> state_val ERR < state_val s.
Proof.
  intros H. destruct (Z_lt_ge_dec (state_val ERR) (state_val s)) as [|Hle];
    [assumption|].
  destruct cs as [|c cs]; [unfold run in H; simpl in *; lia|].
  rewrite run_stuck in H by (try lia; discriminate). simpl in H. lia.
Qed.

Lemma closed_transition_cases (s : dfa_state_t) (c : Z) (lo hi : Z)
      (t : dfa_state_t) :
  closed_transition s c = (if between lo hi c then t else ERR) ->
  (trailing lo hi c /\ closed_transition s c = t) \/
  (~ trailing lo hi c /\ closed_transition s c = ERR).
Proof.
  intros H. rewrite H. unfold between, trailing.
  destruct (lo <=? c) eqn:E1; destruct (c <=? hi) eqn:E2; simpl;
    try apply Z.leb_le in E1; try apply Z.leb_le in E2;
    try apply Z.leb_gt in E1; try apply Z.leb_gt in E2;
    [left|right|right|right]; split; try reflexivity; lia.
Qed.

Ltac split_transition c :=
  match goal with
  | H : context [closed_transition ?s c] |- _ =>
      let Hin := fresh "Hin" in
      let Heq := fresh "Heq" in
      let e := eval cbv beta iota delta [closed_transition] in
                 (closed_transition s c) in
      match e with
      | if between ?lo ?hi _ then ?t else _ =>
          destruct (closed_transition_cases s c lo hi t eq_refl)
            as [[Hin Heq]|[Hin Heq]];
          rewrite Heq in H; clear Heq
      end
  end.

Ltac walk H :=
  match type of H with
  | run ERR _ = BGN => rewrite run_ERR in H; discriminate H
  | run BGN ?cs = BGN =>
      destruct cs;
      [|rewrite run_stuck in H by (simpl; try lia; discriminate);
        discriminate H]
  | run END ?cs = BGN =>
      destruct cs;
      [|rewrite run_stuck in H by (simpl; try lia; discriminate);
        discriminate H]
  | run ?s ?cs = BGN =>
      let c := fresh "c" in
      destruct cs as [|c cs];
      [unfold run in H; simpl in H; discriminate H
      |rewrite run_cons in H; split_transition c; walk H]
  end.

Lemma run_completes (s : dfa_state_t) (cs : list Z) :
  state_val ERR < state_val s ->
  run s cs = BGN <-> completes s cs.
Proof.
  intros Hs. split.
  - intros H.
    destruct s; simpl in Hs; try lia; walk H; simpl; unfold trailing in *; lia.
  - intros H.
    destruct s; simpl in Hs; try lia;
      destruct cs as [|c1 [|c2 [|c3 [|c4 cs]]]]; simpl in H; try contradiction;
      unfold trailing in H;
      repeat (rewrite run_cons; cbn [closed_transition]; unfold between;
              repeat match goal with
                     | |- context [?a <=? ?b] =>
                         replace (a <=? b) with true
                           by (symmetry; apply Z.leb_le; lia)
                     end;
              cbn [andb]);
      reflexivity.
Qed.

(** ** Leading octets *)

Ltac decide_if :=
  match goal with
  | |- context [if ?a <=? ?b then _ else _] =>
      let E := fresh "E" in
      destruct (a <=? b) eqn:E;
      [apply Z.leb_le in E | apply Z.leb_gt in E]; try lia
  | |- context [if ?a =? ?b then _ else _] =>
      let E := fresh "E" in
      destruct (a =? b) eqn:E;
      [apply Z.eqb_eq in E | apply Z.eqb_neq in E]; try lia
  end.

Lemma initial_two (l : Z) :
  0xC2 <= l <= 0xDF -> initial_entry l = (l - 0xC0, CS1).
Proof.
  intros H. rewrite initial_entry_closed by lia. unfold closed_initial.
  repeat decide_if. reflexivity.
Qed.

Lemma initial_three (l : Z) :
  0xE1 <= l <= 0xEF -> l <> 0xED -> initial_entry l = (l - 0xE0, CS2).
Proof.
  intros H Hne. rewrite initial_entry_closed by lia. unfold closed_initial.
  repeat decide_if. reflexivity.
Qed.

Lemma initial_four (l : Z) :
  0xF1 <= l <= 0xF3 -> initial_entry l = (l - 0xF0, CS3).
Proof.
  intros H. rewrite initial_entry_closed by lia. unfold closed_initial.
  repeat decide_if. reflexivity.
Qed.

Lemma initial_rejected (l : Z) :
  0xF5 <= l <= 0xFF -> initial_entry l = (l, ERR).
Proof.
  intros H. rewrite initial_entry_closed by lia. unfold closed_initial.
  repeat decide_if. reflexivity.
Qed.

Lemma initial_E0 : initial_entry 0xE0 = (0, P3A).
Proof. reflexivity. Qed.

Lemma initial_ED : initial_entry 0xED = (0x0D, P3B).
Proof. reflexivity. Qed.

Lemma initial_F0 : initial_entry 0xF0 = (0, P4A).
Proof. reflexivity. Qed.

Lemma initial_F4 : initial_entry 0xF4 = (4, P4B).
Proof. reflexivity. Qed.

Lemma leading_cases (l : Z) :
  0xC2 <= l <= 0xFF ->
  0xC2 <= l <= 0xDF \/ l = 0xE0 \/ (0xE1 <= l <= 0xEF /\ l <> 0xED) \/
  l = 0xED \/ l = 0xF0 \/ 0xF1 <= l <= 0xF3 \/ l = 0xF4 \/
  0xF5 <= l <= 0xFF.
Proof. lia. Qed.

Lemma update_trailing (cp c : Z) :
  0 <= cp < 2 ^ 26 -> 0x80 <= c <= 0xBF ->
  utf8.update_code_point cp c = cp * 64 + (c - 0x80).
Proof.
  intros Hcp Hc. rewrite update_code_point_arith by exact Hcp.
  replace (c mod 64) with (c - 128); [reflexivity|].
  Z.to_euclidean_division_equations. lia.
Qed.

Ltac accumulate_arith :=
  unfold accumulate; cbn [fold_left];
  repeat match goal with
         | |- context [utf8.update_code_point ?a ?b] =>
             rewrite (update_trailing a b) by lia
         end.

(** ** Accepted sequences are exactly the reference encodings *)

Lemma completes_sound (l : Z) (cs : list Z) :
  0xC2 <= l <= 0xFF ->
  completes (snd (initial_entry l)) cs ->
  is_scalar (accumulate (fst (initial_entry l)) cs) /\
  0x80 <= accumulate (fst (initial_entry l)) cs /\
  encode_ref (accumulate (fst (initial_entry l)) cs) = l :: cs.
Proof.
  intros Hl H.
  destruct (leading_cases l Hl)
    as [C|[C|[[C C']|[C|[C|[C|[C|C]]]]]]];
    [rewrite initial_two in * by lia
    |subst l; rewrite initial_E0 in *
    |rewrite initial_three in * by lia
    |subst l; rewrite initial_ED in *
    |subst l; rewrite initial_F0 in *
    |rewrite initial_four in * by lia
    |subst l; rewrite initial_F4 in *
    |rewrite initial_rejected in * by lia];
    cbn [fst snd] in *;
    destruct cs as [|c1 [|c2 [|c3 [|c4 cs]]]]; simpl in H; try contradiction;
    unfold trailing in H; accumulate_arith; unfold is_scalar;
    (split; [lia|]); (split; [lia|]).
  - rewrite encode_ref_2 by lia.
    repeat f_equal; Z.to_euclidean_division_equations; lia.
  - rewrite encode_ref_3 by lia.
    repeat f_equal; Z.to_euclidean_division_equations; lia.
  - rewrite encode_ref_3 by lia.
    repeat f_equal; Z.to_euclidean_division_equations; lia.
  - rewrite encode_ref_3 by lia.
    repeat f_equal; Z.to_euclidean_division_equations; lia.
  - rewrite encode_ref_4 by lia.
    repeat f_equal; Z.to_euclidean_division_equations; lia.
  - rewrite encode_ref_4 by lia.
    repeat f_equal; Z.to_euclidean_division_equations; lia.
  - rewrite encode_ref_4 by lia.
    repeat f_equal; Z.to_euclidean_division_equations; lia.
Qed.

Lemma encode_completes (v : Z) :
  is_scalar v -> 0x80 <= v ->
  exists l cs,
    encode_ref v = l :: cs /\
    0xC2 <= l <= 0xF4 /\
    completes (snd (initial_entry l)) cs /\
    accumulate (fst (initial_entry l)) cs = v.
Proof.
  intros [Hrange Hsur] Hv.
  destruct (Z_lt_ge_dec v 0x800) as [H2|H2];
    [|destruct (Z_lt_ge_dec v 0x10000) as [H3|H3]].
  - rewrite encode_ref_2 by lia.
    assert (Hd : v = 64 * (v / 64) + v mod 64 /\ 0 <= v mod 64 < 64)
      by (Z.to_euclidean_division_equations; lia).
    set (a := v / 64) in *. set (c := v mod 64) in *. clearbody a c.
    exists (0xC0 + a), [0x80 + c].
    split; [reflexivity|]. split; [lia|].
    rewrite initial_two by lia. cbn [fst snd].
    split; [cbn [completes]; unfold trailing; lia|].
    accumulate_arith. lia.
  - rewrite encode_ref_3 by lia.
    assert (Hd : v = 4096 * (v / 4096) + 64 * ((v / 64) mod 64) + v mod 64 /\
                 0 <= (v / 64) mod 64 < 64 /\ 0 <= v mod 64 < 64)
      by (Z.to_euclidean_division_equations; lia).
    set (a := v / 4096) in *. set (b := (v / 64) mod 64) in *.
    set (c := v mod 64) in *. clearbody a b c.
    exists (0xE0 + a), [0x80 + b; 0x80 + c].
    split; [reflexivity|]. split; [lia|].
    assert (Ha : a = 0 \/ a = 0x0D \/ (1 <= a <= 15 /\ a <> 0x0D)) by lia.
    destruct Ha as [Ha|[Ha|Ha]].
    + subst a. change (224 + 0) with 224. rewrite initial_E0. cbn [fst snd].
      split; [cbn [completes]; unfold trailing; lia|]. accumulate_arith. lia.
    + subst a. change (224 + 13) with 237. rewrite initial_ED. cbn [fst snd].
      split; [cbn [completes]; unfold trailing; lia|]. accumulate_arith. lia.
    + rewrite initial_three by lia. cbn [fst snd].
      split; [cbn [completes]; unfold trailing; lia|]. accumulate_arith. lia.
  - rewrite encode_ref_4 by lia.
    assert (Hd : v = 262144 * (v / 262144) + 4096 * ((v / 4096) mod 64)
                     + 64 * ((v / 64) mod 64) + v mod 64 /\
                 0 <= (v / 4096) mod 64 < 64 /\
                 0 <= (v / 64) mod 64 < 64 /\ 0 <= v mod 64 < 64)
      by (Z.to_euclidean_division_equations; lia).
    set (a := v / 262144) in *. set (b := (v / 4096) mod 64) in *.
    set (c := (v / 64) mod 64) in *. set (d := v mod 64) in *.
    clearbody a b c d.
    exists (0xF0 + a), [0x80 + b; 0x80 + c; 0x80 + d].
    split; [reflexivity|]. split; [lia|].
    assert (Ha : a = 0 \/ a = 4 \/ 1 <= a <= 3) by lia.
    destruct Ha as [Ha|[Ha|Ha]].
    + subst a. change (240 + 0) with 240. rewrite initial_F0. cbn [fst snd].
      split; [cbn [completes]; unfold trailing; lia|]. accumulate_arith. lia.
    + subst a. change (240 + 4) with 244. rewrite initial_F4. cbn [fst snd].
      split; [cbn [completes]; unfold trailing; lia|]. accumulate_arith. lia.
    + rewrite initial_four by lia. cbn [fst snd].
      split; [cbn [completes]; unfold trailing; lia|]. accumulate_arith. lia.
Qed.

Lemma encode_ref_octets (v : Z) :
  is_scalar v -> Forall (fun c => 0 <= c < 256) (encode_ref v).
Proof.
  intros Hs. destruct (Z_lt_ge_dec v 0x80) as [H1|H1].
  - rewrite encode_ref_1 by lia. destruct Hs as [Hr _].
    constructor; [lia|constructor].
  - destruct (encode_completes v Hs ltac:(lia)) as (l & cs & He & Hl & Hc & _).
    rewrite He. constructor; [lia|].
    destruct (snd (initial_entry l));
      destruct cs as [|c1 [|c2 [|c3 [|c4 cs]]]]; simpl in Hc;
      try contradiction; unfold trailing in Hc;
      repeat constructor; lia.
Qed.

Lemma map_to_uint8_octets (l : list Z) :
  Forall (fun c => 0 <= c < 256) l -> map to_uint8 l = l.
Proof.
  induction 1 as [|c l Hc Hl IH]; simpl; [reflexivity|].
  rewrite to_uint8_small by exact Hc. rewrite IH. reflexivity.
Qed.

Lemma encode_ref_nonempty (v : Z) : encode_ref v <> [].
Proof.
  unfold encode_ref.
  destruct (v <? 128); [discriminate|].
  destruct (v <? 2048); [discriminate|].
  destruct (v <? 65536); discriminate.
Qed.

(** ** The inner loop in terms of the automaton *)

Lemma transition_advance (s : dfa_state_t) (c : Z) :
  state_val ERR < state_val s -> transition s c = advance s c.
Proof.
  intros H. unfold advance.
  destruct (state_val s >? state_val ERR) eqn:E; [reflexivity|].
  rewrite Z.gtb_ltb in E. apply Z.ltb_ge in E. lia.
Qed.

Lemma continuation_stuck (units : list Z) (cp : Z) (s : dfa_state_t) :
  state_val s <= state_val ERR -> continuation units cp s = (units, cp, s).
Proof.
  intros H. destruct units; simpl;
    (destruct (state_val s >? 12) eqn:E;
     [apply Z.gtb_lt in E; simpl in H; lia | reflexivity]).
Qed.

Lemma continuation_cons (x : Z) (rest : list Z) (cp : Z) (s : dfa_state_t) :
  state_val ERR < state_val s ->
  continuation (x :: rest) cp s
  = continuation rest (utf8.update_code_point cp (to_uint8 x))
                 (closed_transition s (to_uint8 x)).
Proof.
  intros H. simpl.
  destruct (state_val s >? 12) eqn:E;
    [|rewrite Z.gtb_ltb in E; apply Z.ltb_ge in E; simpl in H; lia].
  rewrite transition_advance by exact H. rewrite advance_closed. reflexivity.
Qed.

Lemma continuation_nil (cp : Z) (s : dfa_state_t) :
  state_val ERR < state_val s -> continuation [] cp s = ([], cp, ERR).
Proof.
  intros H. simpl.
  destruct (state_val s >? 12) eqn:E; [reflexivity|].
  rewrite Z.gtb_ltb in E. apply Z.ltb_ge in E. simpl in H. lia.
Qed.

(* The inner loop either runs into the end of the input with the automaton
   still above ERR, or stops at the first octet that takes it to END or
   ERR. *)
Lemma continuation_spec (units : list Z) :
  forall cp s,
    state_val ERR < state_val s ->
    exists consumed r,
      units = consumed ++ r /\
      ((r = [] /\
        state_val ERR < state_val (run s (map to_uint8 consumed)) /\
        continuation units cp s
        = ([], accumulate cp (map to_uint8 consumed), ERR))
       \/
       (exists q y,
          consumed = q ++ [y] /\
          state_val ERR < state_val (run s (map to_uint8 q)) /\
          state_val (run s (map to_uint8 consumed)) <= state_val ERR /\
          continuation units cp s
          = (r, accumulate cp (map to_uint8 consumed),
             run s (map to_uint8 consumed)))).
Proof.
  induction units as [|x rest IH]; intros cp s Hs.
  - exists [], []. split; [reflexivity|]. left.
    rewrite continuation_nil by exact Hs. auto.
  - rewrite continuation_cons by exact Hs.
    destruct (Z_lt_ge_dec (state_val ERR)
                (state_val (closed_transition s (to_uint8 x)))) as [Hgo|Hend].
    + destruct (IH (utf8.update_code_point cp (to_uint8 x))
                   (closed_transition s (to_uint8 x)) Hgo)
        as (c & r & Hsplit & [(Hr & Hrun & Hcont)|(q & y & Hq & Hrun & Hfin & Hcont)]).
      * exists (x :: c), r. split; [simpl; congruence|]. left.
        simpl map. rewrite run_cons. auto.
      * exists (x :: c), r. split; [simpl; congruence|]. right.
        exists (x :: q), y. simpl map. rewrite !run_cons.
        split; [simpl; congruence|]. auto.
    + exists [x], rest. split; [reflexivity|]. right.
      exists [], x. simpl map. rewrite run_cons.
      split; [reflexivity|]. split; [exact Hs|].
      split; [change (state_val (closed_transition s (to_uint8 x))
                      <= state_val ERR); lia|].
      rewrite continuation_stuck by lia. reflexivity.
Qed.

Lemma run_final (s : dfa_state_t) (cs : list Z) :
  state_val (run s cs) <= state_val ERR -> run s cs = BGN \/ run s cs = ERR.
Proof. destruct (run s cs); simpl; intros H; try lia; auto. Qed.

Lemma completes_completion (s : dfa_state_t) :
  state_val ERR < state_val s -> completes s (completion s) /\ completion s <> [].
Proof.
  destruct s; simpl; intros H; try lia; unfold trailing;
    (split; [lia | discriminate]).
Qed.

(* An octet sequence on which the automaton is still above ERR can be
   completed to the encoding of a scalar value. *)
Lemma pending_incomplete (l : Z) (q : list Z) :
  0xC2 <= l <= 0xFF ->
  state_val ERR < state_val (run (snd (initial_entry l)) q) ->
  incomplete (l :: q).
Proof.
  intros Hl Hq.
  set (s := run (snd (initial_entry l)) q) in *.
  destruct (completes_completion s Hq) as [Hc Hne].
  pose proof (run_above _ _ Hq) as Hs0.
  assert (Hrun : run (snd (initial_entry l)) (q ++ completion s) = BGN).
  { rewrite run_app. apply run_completes; assumption. }
  apply run_completes in Hrun; [|exact Hs0].
  destruct (completes_sound l _ Hl Hrun) as (Hscalar & _ & Henc).
  exists (accumulate (fst (initial_entry l)) (q ++ completion s)), (completion s).
  split; [exact Hscalar|]. split; [exact Hne|]. exact Henc.
Qed.

(* The first octet of an encoding. *)
Lemma encode_ref_leading (v l : Z) (cs : list Z) :
  is_scalar v -> encode_ref v = l :: cs ->
  (l < 0x80 /\ cs = [] /\ v = l) \/
  (0xC2 <= l <= 0xF4 /\ run (snd (initial_entry l)) cs = BGN /\
   state_val ERR < state_val (snd (initial_entry l)) /\
   accumulate (fst (initial_entry l)) cs = v).
Proof.
  intros Hs He. destruct (Z_lt_ge_dec v 0x80) as [H1|H1].
  - left. rewrite encode_ref_1 in He by lia. injection He as <- <-. auto.
  - right. destruct (encode_completes v Hs ltac:(lia))
      as (l' & cs' & He' & Hl & Hc & Hacc).
    rewrite He in He'. injection He' as <- <-.
    assert (Hs0 : state_val ERR < state_val (snd (initial_entry l))).
    { destruct (snd (initial_entry l)); simpl in Hc |- *; try lia;
        destruct cs; contradiction. }
    split; [exact Hl|]. split; [apply run_completes; assumption|]. auto.
Qed.

Lemma incomplete_nil : incomplete [].
Proof.
  exists 0, [0]. split; [unfold is_scalar; lia|].
  split; [discriminate | reflexivity].
Qed.

Lemma not_leading (l : Z) :
  0x80 <= l < 0xC2 \/ 0xF5 <= l -> ~ valid_prefix ([] ++ [l]).
Proof.
  intros Hl (v & suffix & Hs & He). simpl in He.
  destruct (encode_ref_leading v l suffix Hs He) as [(H & _)|(H & _)]; lia.
Qed.

(** ** One pass of the outer loop *)

Lemma initial_state_cases (o : Z) :
  0xC2 <= o <= 0xFF ->
  (0xC2 <= o <= 0xF4 /\ state_val ERR < state_val (snd (initial_entry o))) \/
  (0xF5 <= o /\ snd (initial_entry o) = ERR).
Proof.
  intros Ho.
  destruct (leading_cases o Ho)
    as [C|[C|[[C C']|[C|[C|[C|[C|C]]]]]]];
    [rewrite initial_two by lia
    |subst o; rewrite initial_E0
    |rewrite initial_three by lia
    |subst o; rewrite initial_ED
    |subst o; rewrite initial_F0
    |rewrite initial_four by lia
    |subst o; rewrite initial_F4
    |rewrite initial_rejected by lia];
    simpl; [left|left|left|left|left|left|left|right]; split; (lia || reflexivity).
Qed.

(* Every way through the body of the outer loop. *)
Lemma sequence_cases (x : Z) (rest : list Z) :
  (to_uint8 x < 0x80 /\ sequence x rest = Emit (to_uint8 x) rest)
  \/
  ((0x80 <= to_uint8 x < 0xC2 \/ 0xF5 <= to_uint8 x) /\
   sequence x rest = Stop rest)
  \/
  (0xC2 <= to_uint8 x <= 0xF4 /\
   state_val ERR < state_val (snd (initial_entry (to_uint8 x))) /\
   exists consumed r,
     rest = consumed ++ r /\
     ((r = [] /\
       state_val ERR < state_val (run (snd (initial_entry (to_uint8 x)))
                                      (map to_uint8 consumed)) /\
       sequence x rest = Stop [])
      \/
      (exists q y,
         consumed = q ++ [y] /\
         state_val ERR < state_val (run (snd (initial_entry (to_uint8 x)))
                                        (map to_uint8 q)) /\
         run (snd (initial_entry (to_uint8 x))) (map to_uint8 consumed) = ERR /\
         sequence x rest = Stop r)
      \/
      (run (snd (initial_entry (to_uint8 x))) (map to_uint8 consumed) = BGN /\
       sequence x rest
       = Emit (accumulate (fst (initial_entry (to_uint8 x)))
                          (map to_uint8 consumed)) r))).
Proof.
  unfold sequence. pose proof (to_uint8_range x) as Hx.
  destruct (to_uint8 x <? 128) eqn:Hascii;
    [apply Z.ltb_lt in Hascii; left; auto | apply Z.ltb_ge in Hascii].
  destruct (to_uint8 x <? 194) eqn:Hlead;
    [apply Z.ltb_lt in Hlead; right; left; split; [lia | reflexivity]
    |apply Z.ltb_ge in Hlead].
  right.
  destruct (initial_state_cases (to_uint8 x) ltac:(lia)) as [[Ho Hs0]|[Ho Hs0]].
  - right. split; [exact Ho|]. split; [exact Hs0|].
    destruct (initial_entry (to_uint8 x)) as [tmp s0]. cbn [fst snd] in *.
    destruct (continuation_spec rest tmp s0 Hs0)
      as (c & r & Hsplit &
          [(Hr & Hrun & Hcont)|(q & y & Hq & Hrun & Hfin & Hcont)]).
    + exists c, r. split; [exact Hsplit|]. left.
      rewrite Hcont. simpl. auto.
    + exists c, r. split; [exact Hsplit|]. right. rewrite Hcont.
      destruct (run_final _ _ Hfin) as [Hb|He].
      * right. rewrite Hb. simpl. auto.
      * left. exists q, y. rewrite He. simpl. auto.
  - left. split; [lia|].
    destruct (initial_entry (to_uint8 x)) as [tmp s0]. cbn [snd] in Hs0.
    subst s0. rewrite continuation_stuck by (simpl; lia). reflexivity.
Qed.

Lemma sequence_emit_sound (x : Z) (rest : list Z) (cp : Z) (r : list Z) :
  sequence x rest = Emit cp r ->
  exists tail,
    rest = tail ++ r /\ is_scalar cp /\
    map to_uint8 (x :: tail) = encode_ref cp.
Proof.
  intros H. pose proof (to_uint8_range x) as Hx.
  destruct (sequence_cases x rest)
    as [[Ho Hs]|[[Ho Hs]|(Ho & Hs0 & c & r' & Hsplit &
                          [(_ & _ & Hs)|[(q & y & _ & _ & _ & Hs)|[Hrun Hs]]])]];
    rewrite Hs in H; try discriminate H.
  - injection H as <- <-. exists []. split; [reflexivity|].
    split; [unfold is_scalar; lia|].
    rewrite encode_ref_1 by lia. reflexivity.
  - injection H as <- <-. exists c. split; [exact Hsplit|].
    apply run_completes in Hrun; [|exact Hs0].
    destruct (completes_sound (to_uint8 x) _ ltac:(lia) Hrun) as (Hsc & _ & He).
    split; [exact Hsc|]. rewrite He. reflexivity.
Qed.

Lemma sequence_stop_sound (x : Z) (rest r : list Z) :
  sequence x rest = Stop r ->
  exists tail,
    rest = tail ++ r /\
    (ill_formed (map to_uint8 (x :: tail)) \/
     (r = [] /\ incomplete (map to_uint8 (x :: tail)))).
Proof.
  intros H. pose proof (to_uint8_range x) as Hx.
  destruct (sequence_cases x rest)
    as [[Ho Hs]|[[Ho Hs]|(Ho & Hs0 & c & r' & Hsplit &
                          [(Hr & Hrun & Hs)|[(q & y & Hq & Hrun & Herr & Hs)|[Hrun Hs]]])]];
    rewrite Hs in H; try discriminate H; injection H as <-.
  - exists []. split; [reflexivity|]. left.
    exists [], (to_uint8 x). split; [reflexivity|].
    split; [apply incomplete_nil | apply not_leading; lia].
  - exists c. split; [subst r'; exact Hsplit|]. right.
    split; [reflexivity|]. simpl map. apply pending_incomplete; [lia | exact Hrun].
  - exists c. split; [exact Hsplit|]. left.
    exists (to_uint8 x :: map to_uint8 q), (to_uint8 y).
    split; [subst c; simpl; rewrite map_app; reflexivity|].
    split; [apply pending_incomplete; [lia | exact Hrun]|].
    intros (v & suffix & Hv & He). simpl in He.
    destruct (encode_ref_leading v _ _ Hv He) as [(Hl & _)|(_ & Hacc & _)];
      [lia|].
    rewrite run_app in Hacc. subst c. rewrite map_app in Herr.
    simpl map in Herr. rewrite Herr, run_ERR in Hacc. discriminate Hacc.
Qed.

(** ** Encodings and their proper prefixes, seen by the loops *)

Lemma continuation_accept (cs : list Z) :
  forall r cp s,
    state_val ERR < state_val s ->
    run s (map to_uint8 cs) = BGN ->
    continuation (cs ++ r) cp s = (r, accumulate cp (map to_uint8 cs), BGN).
Proof.
  induction cs as [|c cs IH]; intros r cp s Hs Hrun.
  - unfold run in Hrun. simpl in Hrun. subst s. simpl in Hs. lia.
  - simpl app. rewrite continuation_cons by exact Hs.
    simpl map in Hrun. rewrite run_cons in Hrun.
    destruct (Z_lt_ge_dec (state_val ERR)
                (state_val (closed_transition s (to_uint8 c)))) as [Hgo|Hend].
    + rewrite IH by assumption. reflexivity.
    + destruct cs as [|c' cs].
      * unfold run in Hrun. simpl in Hrun. rewrite Hrun.
        rewrite continuation_stuck by (simpl; lia). reflexivity.
      * rewrite run_stuck in Hrun by (try lia; discriminate). discriminate Hrun.
Qed.

Lemma continuation_pending (cs : list Z) :
  forall cp s,
    state_val ERR < state_val (run s (map to_uint8 cs)) ->
    continuation cs cp s = ([], accumulate cp (map to_uint8 cs), ERR).
Proof.
  induction cs as [|c cs IH]; intros cp s Hrun.
  - apply continuation_nil. exact Hrun.
  - pose proof (run_above _ _ Hrun) as Hs.
    rewrite continuation_cons by exact Hs.
    simpl map in Hrun. rewrite run_cons in Hrun.
    rewrite IH by exact Hrun. reflexivity.
Qed.

Lemma sequence_leading (x : Z) (rest : list Z) :
  0xC2 <= to_uint8 x ->
  sequence x rest
  = let '(r, cp, s) := continuation rest (fst (initial_entry (to_uint8 x)))
                                    (snd (initial_entry (to_uint8 x))) in
    if state_eqb s ERR then Stop r else Emit cp r.
Proof.
  intros H. unfold sequence.
  destruct (to_uint8 x <? 128) eqn:E1; [apply Z.ltb_lt in E1; lia|].
  destruct (to_uint8 x <? 194) eqn:E2; [apply Z.ltb_lt in E2; lia|].
  destruct (initial_entry (to_uint8 x)). reflexivity.
Qed.

Lemma sequence_encode (v : Z) (bytes : list Z) :
  is_scalar v -> map to_uint8 bytes = encode_ref v ->
  exists x tail,
    bytes = x :: tail /\ forall r, sequence x (tail ++ r) = Emit v r.
Proof.
  intros Hv He.
  destruct bytes as [|x tail];
    [symmetry in He; apply encode_ref_nonempty in He; contradiction|].
  exists x, tail. split; [reflexivity|]. intros r.
  simpl in He. symmetry in He.
  destruct (encode_ref_leading v _ _ Hv He)
    as [(Hl & Hnil & Hvl)|(Hl & Hrun & Hs0 & Hacc)].
  - apply map_eq_nil in Hnil. subst tail v. unfold sequence.
    destruct (to_uint8 x <? 128) eqn:E; [reflexivity|apply Z.ltb_ge in E; lia].
  - rewrite sequence_leading by lia.
    rewrite continuation_accept by assumption. rewrite Hacc. reflexivity.
Qed.

Lemma sequence_truncated (part : list Z) :
  part <> [] -> incomplete (map to_uint8 part) ->
  exists x tail,
    part = x :: tail /\ sequence x tail = Stop [] /\
    snd (continuation tail (fst (initial_entry (to_uint8 x)))
                      (snd (initial_entry (to_uint8 x)))) = ERR.
Proof.
  intros Hne (v & suffix & Hv & Hsuf & He).
  destruct part as [|x tail]; [congruence|].
  exists x, tail. split; [reflexivity|]. simpl in He.
  destruct (encode_ref_leading v _ _ Hv He)
    as [(Hl & Hnil & Hvl)|(Hl & Hrun & Hs0 & Hacc)].
  - apply app_eq_nil in Hnil. destruct Hnil as [_ Hnil]. congruence.
  - rewrite run_app in Hrun.
    assert (Hpend : state_val ERR
                    < state_val (run (snd (initial_entry (to_uint8 x)))
                                     (map to_uint8 tail))).
    { destruct (Z_lt_ge_dec (state_val ERR)
                  (state_val (run (snd (initial_entry (to_uint8 x)))
                                  (map to_uint8 tail)))) as [|Hle];
        [assumption|].
      rewrite run_stuck in Hrun by (try lia; assumption). discriminate Hrun. }
    rewrite sequence_leading by lia.
    rewrite continuation_pending by exact Hpend. split; reflexivity.
Qed.

(** ** Whole inputs *)

Lemma decoding_encoded (v : Z) (bytes r out r' : list Z) :
  is_scalar v -> map to_uint8 bytes = encode_ref v ->
  decoding r out r' -> decoding (bytes ++ r) (v :: out) r'.
Proof.
  intros Hv He Hd.
  destruct (sequence_encode v bytes Hv He) as (x & tail & -> & Hs).
  simpl. eapply decoding_emit; [apply Hs | exact Hd].
Qed.

Lemma decoding_valid (out : list Z) :
  forall pre tail out' r',
    Forall is_scalar out ->
    map to_uint8 pre = flat_map encode_ref out ->
    decoding tail out' r' ->
    decoding (pre ++ tail) (out ++ out') r'.
Proof.
  induction out as [|v out IH]; intros pre tail out' r' Hsc He Hd.
  - simpl in He. apply map_eq_nil in He. subst pre. exact Hd.
  - simpl in He. apply map_eq_app in He.
    destruct He as (b1 & b2 & -> & Hb1 & Hb2).
    inversion Hsc as [|? ? Hv Hrest]; subst.
    rewrite <- app_assoc. simpl.
    apply decoding_encoded; [exact Hv | exact Hb1|].
    apply IH; assumption.
Qed.

(* What the outer loop has done when it returns: a run of well-formed
   sequences, every one of them written, then nothing, an ill-formed
   sequence, or a sequence cut short by the end of the input. *)
Lemma decoding_sound (units out r : list Z) :
  decoding units out r ->
  exists pre bad,
    units = pre ++ bad ++ r /\
    Forall is_scalar out /\
    map to_uint8 pre = flat_map encode_ref out /\
    ((bad = [] /\ r = []) \/
     ill_formed (map to_uint8 bad) \/
     (r = [] /\ bad <> [] /\ incomplete (map to_uint8 bad))).
Proof.
  induction 1 as [|x rest r Hs|x rest cp r em r' Hs Hd IH].
  - exists [], []. repeat split; auto.
  - destruct (sequence_stop_sound _ _ _ Hs) as (tail & Hsplit & Hbad).
    exists [], (x :: tail). simpl. split; [congruence|].
    split; [constructor|]. split; [reflexivity|].
    right. destruct Hbad as [Hill|[Hr Hinc]]; [left; exact Hill|].
    right. split; [exact Hr|]. split; [discriminate | exact Hinc].
  - destruct (sequence_emit_sound _ _ _ _ Hs) as (tail & Hsplit & Hsc & He).
    destruct IH as (pre & bad & Hunits & Hall & Hpre & Hcase).
    exists ((x :: tail) ++ pre), bad.
    split; [rewrite <- app_assoc; simpl; congruence|].
    split; [constructor; assumption|].
    split; [rewrite map_app; simpl flat_map; rewrite He, Hpre; reflexivity|].
    exact Hcase.
Qed.

Lemma decode_loop_fuel (f1 : nat) :
  forall f2 units out lg,
    (length units < f1)%nat -> (length units < f2)%nat ->
    utf8.decode_loop f1 (Machine units out lg)
    = utf8.decode_loop f2 (Machine units out lg).
Proof.
  induction f1 as [|f1 IH]; intros f2 units out lg H1 H2; [lia|].
  destruct f2 as [|f2]; [lia|].
  destruct units as [|x rest]; [rewrite !decode_loop_nil; reflexivity|].
  simpl in H1, H2. rewrite !decode_loop_eq by lia.
  destruct (sequence_consumes x rest) as (c & Hc & _).
  destruct (sequence x rest) as [cp r|r]; [|reflexivity].
  simpl in Hc. apply (f_equal (@length Z)) in Hc. simpl in Hc.
  rewrite length_app in Hc. apply IH; lia.
Qed.

Lemma decode_result (units : list Z) :
  exists m consumed pre bad,
    utf8.decode units = Done m /\
    units = consumed ++ input m /\
    consumed = pre ++ bad /\
    reads (log m) = map to_uint8 consumed /\
    Forall in_bounds (log m) /\
    Forall is_scalar (output m) /\
    map to_uint8 pre = flat_map encode_ref (output m) /\
    ((bad = [] /\ input m = []) \/
     ill_formed (map to_uint8 bad) \/
     (input m = [] /\ bad <> [] /\ incomplete (map to_uint8 bad))).
Proof.
  destruct (decode_decoding units) as (m & Hm & Hd & c & Hc & Hreads & Hb).
  destruct (decoding_sound _ _ _ Hd) as (pre & bad & Hu & Hsc & Hpre & Hcase).
  exists m, c, pre, bad. repeat split; try assumption.
  rewrite Hu in Hc at 1. rewrite app_assoc in Hc.
  apply app_inv_tail in Hc. congruence.
Qed.

(** * Properties of the specification, C1 to C10 *)

(** C1. For every Unicode scalar value V (0 to 0x10FFFF, surrogates
    excluded), decoding the reference encoding of V writes exactly the one
    code point V and returns the end of the encoded code units: their whole
    length is consumed. *)
Theorem round_trip (V : Z) :
  0 <= V <= 0x10FFFF -> ~ (0xD800 <= V <= 0xDFFF) ->
  exists m,
    utf8.decode (encode_ref V) = Done m /\
    output m = [V] /\
    input m = [] /\
    position (encode_ref V) m = length (encode_ref V).
Proof.
  intros Hr Hs.
  assert (Hv : is_scalar V) by (split; assumption).
  assert (Hd : decoding (encode_ref V ++ []) [V] []).
  { apply decoding_encoded; [exact Hv| |constructor].
    apply map_to_uint8_octets, encode_ref_octets, Hv. }
  rewrite app_nil_r in Hd.
  destruct (decode_of_decoding _ _ _ Hd) as (m & Hm & Hout & Hin).
  exists m. repeat split; try assumption.
  unfold position. rewrite Hin. simpl. lia.
Qed.

Lemma round_trip_witness :
  0 <= 0x20AC <= 0x10FFFF /\ ~ (0xD800 <= 0x20AC <= 0xDFFF) /\
  exists m,
    utf8.decode (encode_ref 0x20AC) = Done m /\
    output m = [0x20AC] /\
    input m = [] /\
    position (encode_ref 0x20AC) m = length (encode_ref 0x20AC).
Proof.
  split; [lia|]. split; [lia|]. apply (round_trip 0x20AC); lia.
Defined.

(** C2, as the code has it. Decoding the two code units 0xC0 0x80 returns
    position 1: the leading octet 0xC0 is below 0xC2 and decode returns
    right after reading it, so 0x80 is never read; no code point is
    written. *)
Theorem overlong_C0_stops_after_leader :
  exists m,
    utf8.decode [0xC0; 0x80] = Done m /\
    position [0xC0; 0x80] m = 1%nat /\
    input m = [0x80] /\
    reads (log m) = [0xC0] /\
    output m = [].
Proof. eexists. split; [reflexivity|]. repeat split. Qed.

(* C2 as stated (position 2, both code units read) does not hold. *)
Lemma overlong_C0_not_position_2 :
  ~ (exists m,
       utf8.decode [0xC0; 0x80] = Done m /\
       position [0xC0; 0x80] m = 2%nat /\
       output m = []).
Proof.
  intros (m & Hm & Hpos & _).
  vm_compute in Hm. injection Hm as <-. vm_compute in Hpos. discriminate Hpos.
Qed.

(** C3. decode never faults: it always returns a machine state. Whenever the
    iterator it returns is not the end, the input splits into well-formed
    sequences [pre], an ill-formed sequence [p ++ [x]] and the unread rest;
    the returned position is one past the offending code unit [x], the last
    one read; the code points written are exactly those of [pre], in order,
    and none for [p ++ [x]]. *)
Theorem stop_position (units : list Z) :
  exists m,
    utf8.decode units = Done m /\
    (input m <> [] ->
     exists pre p x,
       units = pre ++ (p ++ [x]) ++ input m /\
       position units m = (length pre + length p + 1)%nat /\
       nth_error units (position units m - 1) = Some x /\
       reads (log m) = map to_uint8 (pre ++ p ++ [x]) /\
       Forall is_scalar (output m) /\
       map to_uint8 pre = flat_map encode_ref (output m) /\
       incomplete (map to_uint8 p) /\
       ~ valid_prefix (map to_uint8 (p ++ [x]))).
Proof.
  destruct (decode_result units)
    as (m & c & pre & bad & Hm & Hu & Hc & Hreads & _ & Hsc & Hpre & Hcase).
  exists m. split; [exact Hm|]. intros Hrest.
  destruct Hcase as [[_ Hnil]|[Hill|[Hnil _]]]; try contradiction.
  destruct Hill as (p' & x' & Hbad & Hinc & Hnot).
  apply map_eq_app in Hbad. destruct Hbad as (p & l & -> & <- & Hl).
  destruct l as [|x [|x2 l]]; try discriminate Hl.
  injection Hl as <-.
  exists pre, p, x. subst c.
  assert (Hpos : position units m = (length pre + length p + 1)%nat).
  { unfold position. rewrite Hu at 1. rewrite !length_app. simpl. lia. }
  split; [rewrite Hu at 1; rewrite <- app_assoc; reflexivity|].
  split; [exact Hpos|].
  split.
  { rewrite Hpos.
    assert (Hu' : units = (pre ++ p) ++ x :: input m)
      by (rewrite Hu at 1; rewrite <- !app_assoc; reflexivity).
    rewrite Hu' at 1.
    rewrite nth_error_app2 by (rewrite length_app; lia).
    replace (length pre + length p + 1 - 1 - length (pre ++ p))%nat with 0%nat
      by (rewrite length_app; lia).
    reflexivity. }
  split; [exact Hreads|]. split; [exact Hsc|]. split; [exact Hpre|].
  split; [exact Hinc|]. rewrite map_app. exact Hnot.
Qed.

Lemma stop_position_witness :
  exists m,
    utf8.decode [0x41; 0xE2; 0x28; 0x42] = Done m /\
    input m <> [] /\
    exists pre p x,
      [0x41; 0xE2; 0x28; 0x42] = pre ++ (p ++ [x]) ++ input m /\
      position [0x41; 0xE2; 0x28; 0x42] m = (length pre + length p + 1)%nat /\
      nth_error [0x41; 0xE2; 0x28; 0x42]
                (position [0x41; 0xE2; 0x28; 0x42] m - 1) = Some x /\
      reads (log m) = map to_uint8 (pre ++ p ++ [x]) /\
      Forall is_scalar (output m) /\
      map to_uint8 pre = flat_map encode_ref (output m) /\
      incomplete (map to_uint8 p) /\
      ~ valid_prefix (map to_uint8 (p ++ [x])).
Proof.
  destruct (stop_position [0x41; 0xE2; 0x28; 0x42]) as (m & Hm & H).
  exists m. split; [exact Hm|].
  assert (Hrest : input m <> []).
  { vm_compute in Hm. injection Hm as <-. discriminate. }
  split; [exact Hrest | exact (H Hrest)].
Defined.

Ltac reject_transition :=
  let c := fresh "c" in let Hc := fresh "Hc" in
  intros c Hc; rewrite transition_closed by (simpl; lia);
  cbn [closed_transition]; unfold between;
  repeat match goal with
         | |- context [?a <=? ?b] =>
             let E := fresh "E" in
             destruct (a <=? b) eqn:E;
             [apply Z.leb_le in E | apply Z.leb_gt in E]; try lia
         end; reflexivity.

Lemma flat_map_encode_octets (vs : list Z) :
  Forall is_scalar vs ->
  map to_uint8 (flat_map encode_ref vs) = flat_map encode_ref vs.
Proof.
  intros H. apply map_to_uint8_octets.
  induction H as [|v vs Hv Hvs IH]; simpl; [constructor|].
  apply Forall_app. split; [apply encode_ref_octets; exact Hv | exact IH].
Qed.

Lemma continuation_events_stuck (units : list Z) (s : dfa_state_t) :
  state_val s <= state_val ERR -> continuation_events units s = [].
Proof.
  intros H. destruct units; simpl;
    (destruct (state_val s >? 12) eqn:E;
     [apply Z.gtb_lt in E; simpl in H; lia | reflexivity]).
Qed.

Lemma continuation_events_cons (x : Z) (rest : list Z) (s : dfa_state_t) :
  state_val ERR < state_val s ->
  continuation_events (x :: rest) s
  = [Read (to_uint8 x); Lookup OctetCategory (to_uint8 x);
     Lookup StateTransition
       (state_val s + class_val (category_of (to_uint8 x)))]
    ++ continuation_events rest (closed_transition s (to_uint8 x)).
Proof.
  intros H. simpl.
  destruct (state_val s >? 12) eqn:E;
    [|rewrite Z.gtb_ltb in E; apply Z.ltb_ge in E; simpl in H; lia].
  rewrite transition_advance by exact H. rewrite advance_closed. reflexivity.
Qed.

(* When the inner loop leaves the state ERR, either the last thing it did
   was to read ERR out of state_transition, or it ran into the end of the
   input with the automaton still above ERR. *)
Lemma continuation_stop_cause (units : list Z) :
  forall cp s,
    state_val ERR < state_val s ->
    snd (continuation units cp s) = ERR ->
    (exists l e, continuation_events units s = l ++ [e] /\ yields_ERR e) \/
    (fst (fst (continuation units cp s)) = [] /\
     state_val ERR < state_val (run s (map to_uint8 units))).
Proof.
  induction units as [|x rest IH]; intros cp s Hs Herr.
  - right. rewrite continuation_nil by exact Hs. split; [reflexivity|exact Hs].
  - rewrite continuation_cons in * by exact Hs.
    rewrite continuation_events_cons by exact Hs.
    simpl map. rewrite run_cons.
    destruct (Z_lt_ge_dec (state_val ERR)
                (state_val (closed_transition s (to_uint8 x)))) as [Hgo|Hend].
    + destruct (IH _ _ Hgo Herr) as [(l & e & He & Hy)|Htrunc];
        [left|right; exact Htrunc].
      exists ([Read (to_uint8 x); Lookup OctetCategory (to_uint8 x);
               Lookup StateTransition
                 (state_val s + class_val (category_of (to_uint8 x)))] ++ l), e.
      split; [rewrite He, app_assoc; reflexivity | exact Hy].
    + left. rewrite continuation_stuck in Herr by lia. cbn [snd] in Herr.
      rewrite continuation_events_stuck by lia.
      exists [Read (to_uint8 x); Lookup OctetCategory (to_uint8 x)],
             (Lookup StateTransition
                (state_val s + class_val (category_of (to_uint8 x)))).
      split; [reflexivity|]. cbn [yields_ERR].
      pose proof (class_val_range (category_of (to_uint8 x))) as Hc.
      pose proof (state_val_range s) as Hr.
      rewrite (nth_error_nth' lookup.state_transition ERR)
        by (rewrite state_transition_length; lia).
      fold (transition s (to_uint8 x)).
      rewrite transition_advance by exact Hs. rewrite advance_closed, Herr.
      reflexivity.
Qed.

(* After the inner loop the outer loop looks at the state only. *)
Lemma decode_loop_after_continuation (fuel : nat) (x : Z) (rest out : list Z)
      (lg : list event) :
  0xC2 <= to_uint8 x ->
  (length rest < fuel)%nat ->
  exists cp s m1,
    utf8.continuation_loop fuel
      (fst (initial_entry (to_uint8 x))) (snd (initial_entry (to_uint8 x)))
      (Machine rest out
         (lg ++ [Read (to_uint8 x);
                 Lookup InitialState (to_uint8 x - 0xC2)]))
    = Done ((cp, s), m1) /\
    utf8.decode_loop (S fuel) (Machine (x :: rest) out lg)
    = (if state_eqb s ERR then Done (tt, m1)
       else utf8.decode_loop fuel
              (Machine (input m1) (output m1 ++ [cp]) (log m1))).
Proof.
  intros Hlead Hlen. pose proof (to_uint8_range x) as Hx.
  simpl utf8.decode_loop. unfold bind at 1. unfold detail.check at 1.
  cbn [input]. unfold bind at 1. unfold detail.read at 1.
  cbn [input output log]. cbv zeta.
  destruct (to_uint8 x <? 128) eqn:E1; [apply Z.ltb_lt in E1; lia|].
  destruct (to_uint8 x <? 194) eqn:E2; [apply Z.ltb_lt in E2; lia|].
  unfold bind at 1.
  rewrite (at_index_in_range InitialState lookup.initial_state _ (0, ERR))
    by (rewrite initial_state_length; lia).
  fold (initial_entry (to_uint8 x)).
  destruct (initial_entry (to_uint8 x)) as [tmp s0]. cbn [fst snd].
  unfold bind at 1. unfold record. cbn [input output log].
  rewrite <- app_assoc. simpl app.
  rewrite continuation_loop_eq by exact Hlen.
  destruct (continuation rest tmp s0) as [[r cp] s].
  eexists cp, s, _. split; [reflexivity|].
  destruct (state_eqb s ERR); [reflexivity|].
  unfold bind, detail.write. reflexivity.
Qed.

(** C4, as the code has it. Every code point decode writes is a Unicode
    scalar value (at most 0x10FFFF, no surrogate), and the code units
    consumed for the written code points are their reference, shortest-form
    encodings, so none is the payload of an overlong encoding. The rejection
    is not by the tables alone: an octet in 0x80..0xC1 in leading position,
    0xC0 and 0xC1 among them, ends the pass at the guard [octet < 0xC2]
    before any table is consulted. Behind a leading octet from 0xC2 on, the
    tables decide and nothing comes after them: the outer loop tests the
    state the inner loop leaves against ERR and otherwise writes the code
    point as the inner loop left it; a code point is written if and only if
    the automaton of the tables reaches END, and it is then the bare
    accumulation of the payload bits; a pass that returns does so on an
    array element ERR (of initial_state for 0xF5..0xFF, of state_transition
    otherwise) or at the end of the input; every list of scalar values is
    decoded in full. 0xE0, 0xED, 0xF0 and 0xF4 start in the restricted
    states, whose rows reject the second octets of overlong forms, of
    surrogates and of values beyond 0x10FFFF. *)
Theorem written_code_points_are_scalar (units : list Z) :
  exists m,
    utf8.decode units = Done m /\
    Forall is_scalar (output m) /\
    (exists pre tail,
       units = pre ++ tail /\
       map to_uint8 pre = flat_map encode_ref (output m)) /\
    (forall x rest,
       0x80 <= to_uint8 x < 0xC2 ->
       sequence x rest = Stop rest /\
       sequence_events x rest = [Read (to_uint8 x)]) /\
    (forall fuel x rest out lg,
       0xC2 <= to_uint8 x ->
       (length rest < fuel)%nat ->
       exists cp s m1,
         utf8.continuation_loop fuel
           (fst (initial_entry (to_uint8 x)))
           (snd (initial_entry (to_uint8 x)))
           (Machine rest out
              (lg ++ [Read (to_uint8 x);
                      Lookup InitialState (to_uint8 x - 0xC2)]))
         = Done ((cp, s), m1) /\
         utf8.decode_loop (S fuel) (Machine (x :: rest) out lg)
         = (if state_eqb s ERR then Done (tt, m1)
            else utf8.decode_loop fuel
                   (Machine (input m1) (output m1 ++ [cp]) (log m1)))) /\
    (forall x rest cp r,
       0xC2 <= to_uint8 x ->
       (sequence x rest = Emit cp r <->
        exists consumed,
          rest = consumed ++ r /\
          run (snd (initial_entry (to_uint8 x))) (map to_uint8 consumed)
          = END /\
          cp = accumulate (fst (initial_entry (to_uint8 x)))
                          (map to_uint8 consumed))) /\
    (forall x rest r,
       0xC2 <= to_uint8 x ->
       sequence x rest = Stop r ->
       (exists l e, sequence_events x rest = l ++ [e] /\ yields_ERR e) \/
       (r = [] /\
        state_val ERR
        < state_val (run (snd (initial_entry (to_uint8 x)))
                         (map to_uint8 rest)))) /\
    (forall vs,
       Forall is_scalar vs ->
       exists m',
         utf8.decode (flat_map encode_ref vs) = Done m' /\
         output m' = vs /\ input m' = []) /\
    (forall o, 0xF5 <= o <= 0xFF ->
               nth_error lookup.initial_state (Z.to_nat (o - 0xC2))
               = Some (o, ERR)) /\
    (initial_entry 0xE0 = (0x00, P3A) /\
     forall c, 0x80 <= c <= 0x9F -> transition P3A c = ERR) /\
    (initial_entry 0xED = (0x0D, P3B) /\
     forall c, 0xA0 <= c <= 0xBF -> transition P3B c = ERR) /\
    (initial_entry 0xF0 = (0x00, P4A) /\
     forall c, 0x80 <= c <= 0x8F -> transition P4A c = ERR) /\
    (initial_entry 0xF4 = (0x04, P4B) /\
     forall c, 0x90 <= c <= 0xBF -> transition P4B c = ERR).
Proof.
  destruct (decode_result units)
    as (m & c & pre & bad & Hm & Hu & Hc & _ & _ & Hsc & Hpre & _).
  exists m. split; [exact Hm|]. split; [exact Hsc|].
  split.
  { exists pre, (bad ++ input m). split; [|exact Hpre].
    rewrite Hu at 1. subst c. rewrite <- app_assoc. reflexivity. }
  split.
  { intros x rest Hx. unfold sequence, sequence_events.
    destruct (to_uint8 x <? 128) eqn:E1; [apply Z.ltb_lt in E1; lia|].
    destruct (to_uint8 x <? 194) eqn:E2; [|apply Z.ltb_ge in E2; lia].
    split; reflexivity. }
  split; [exact decode_loop_after_continuation|].
  split.
  { intros x rest cp r Hx. pose proof (to_uint8_range x) as Hr. split.
    - intros Hs.
      destruct (sequence_cases x rest)
        as [[Ho Hs']|[[Ho Hs']|(Ho & Hs0 & cs & r' & Hsplit &
              [(_ & _ & Hs')|[(q & y & _ & _ & _ & Hs')|[Hrun Hs']]])]];
        rewrite Hs' in Hs; try discriminate Hs; [lia|].
      injection Hs as <- <-. exists cs. auto.
    - intros (cs & -> & Hrun & ->).
      destruct (initial_state_cases (to_uint8 x) ltac:(lia))
        as [[_ Hs0]|[_ Hs0]].
      + rewrite sequence_leading by exact Hx.
        rewrite continuation_accept by assumption. reflexivity.
      + rewrite Hs0, run_ERR in Hrun. discriminate Hrun. }
  split.
  { intros x rest r Hx Hs. pose proof (to_uint8_range x) as Hr.
    rewrite sequence_leading in Hs by exact Hx.
    unfold sequence_events.
    destruct (to_uint8 x <? 128) eqn:E1; [apply Z.ltb_lt in E1; lia|].
    destruct (to_uint8 x <? 194) eqn:E2; [apply Z.ltb_lt in E2; lia|].
    destruct (initial_state_cases (to_uint8 x) ltac:(lia))
      as [[_ Hs0]|[Ho Hs0]].
    - pose proof (continuation_stop_cause rest
                    (fst (initial_entry (to_uint8 x))) _ Hs0) as Hcause.
      destruct (continuation rest _ _) as [[r' cp] s]. cbn [fst snd] in Hcause.
      destruct (state_eqb s ERR) eqn:Es; [|discriminate Hs].
      injection Hs as ->. apply state_eqb_eq in Es.
      destruct (Hcause Es) as [(l & e & He & Hy)|[Hnil Hrun]].
      + left.
        exists (Read (to_uint8 x)
                :: Lookup InitialState (to_uint8 x - 194) :: l), e.
        split; [rewrite He; reflexivity | exact Hy].
      + right. split; assumption.
    - left. rewrite Hs0, continuation_events_stuck by (simpl; lia).
      exists [Read (to_uint8 x)], (Lookup InitialState (to_uint8 x - 194)).
      split; [reflexivity|]. cbn [yields_ERR]. exists (to_uint8 x).
      rewrite (nth_error_nth' lookup.initial_state (0, ERR))
        by (rewrite initial_state_length; lia).
      fold (initial_entry (to_uint8 x)).
      rewrite initial_rejected by lia. reflexivity. }
  split.
  { intros vs Hvs.
    assert (Hd : decoding (flat_map encode_ref vs ++ []) (vs ++ []) []).
    { apply decoding_valid; [exact Hvs| |constructor].
      apply flat_map_encode_octets. exact Hvs. }
    rewrite !app_nil_r in Hd.
    destruct (decode_of_decoding _ _ _ Hd) as (m' & Hm' & Hout & Hin).
    exists m'. auto. }
  split.
  { intros o Ho.
    rewrite (nth_error_nth' lookup.initial_state (0, ERR))
      by (rewrite initial_state_length; lia).
    fold (initial_entry o). rewrite initial_rejected by exact Ho. reflexivity. }
  repeat split; try reflexivity; reject_transition.
Qed.

(* C4 as stated does not hold: the overlong form 0xC0 0x80 is rejected, and
   no look-up of the run yields ERR, for the run makes no look-up. *)
Lemma overlong_C0_not_rejected_by_tables :
  ~ (forall m,
       utf8.decode [0xC0; 0x80] = Done m ->
       output m = [] /\ exists e, In e (log m) /\ yields_ERR e).
Proof.
  intros H.
  destruct (H _ eq_refl) as (_ & e & Hin & Hy).
  simpl in Hin. destruct Hin as [<-|[]]. exact Hy.
Qed.

(** C5. Decoding 0xED 0xA0 0x80, the would-be encoding of the surrogate
    U+D800, returns position 2: the leader 0xED starts in P3B, the second
    octet 0xA0 has class CR3 and state_transition[P3B + CR3] is ERR; the
    third code unit is not read and no code point is written. *)
Theorem surrogate_D800_rejected :
  exists m,
    utf8.decode [0xED; 0xA0; 0x80] = Done m /\
    position [0xED; 0xA0; 0x80] m = 2%nat /\
    output m = [] /\
    input m = [0x80] /\
    log m = [Read 0xED; Lookup InitialState 43; Read 0xA0;
             Lookup OctetCategory 0xA0; Lookup StateTransition 76].
Proof. eexists. split; [reflexivity|]. repeat split. Qed.

(** C6. When the input ends inside a multi-byte sequence (after well-formed
    sequences [pre], a non-empty proper prefix [part] of a well-formed
    sequence), the inner loop leaves the state ERR, the pass ends like any
    other malformed sequence, and decode returns the end of the input having
    written only the code points of [pre]. In particular the single code
    unit 0xF0 gives position 1 and no code point. *)
Theorem truncation_is_error :
  (forall pre part out,
     Forall is_scalar out ->
     map to_uint8 pre = flat_map encode_ref out ->
     part <> [] ->
     incomplete (map to_uint8 part) ->
     exists m,
       utf8.decode (pre ++ part) = Done m /\
       input m = [] /\
       position (pre ++ part) m = length (pre ++ part) /\
       output m = out /\
       exists x tail,
         part = x :: tail /\
         sequence x tail = Stop [] /\
         snd (continuation tail (fst (initial_entry (to_uint8 x)))
                           (snd (initial_entry (to_uint8 x)))) = ERR)
  /\
  (exists m,
     utf8.decode [0xF0] = Done m /\
     position [0xF0] m = 1%nat /\
     input m = [] /\
     output m = []).
Proof.
  split.
  - intros pre part out Hsc Hpre Hne Hinc.
    destruct (sequence_truncated part Hne Hinc) as (x & tail & Hpart & Hs & Hst).
    assert (Hd : decoding (pre ++ part) (out ++ []) []).
    { apply decoding_valid; [exact Hsc | exact Hpre|].
      rewrite Hpart. apply decoding_stop. exact Hs. }
    rewrite app_nil_r in Hd.
    destruct (decode_of_decoding _ _ _ Hd) as (m & Hm & Hout & Hin).
    exists m. split; [exact Hm|]. split; [exact Hin|].
    split; [unfold position; rewrite Hin; simpl; lia|].
    split; [exact Hout|]. exists x, tail. auto.
  - eexists. split; [reflexivity|]. repeat split.
Qed.

Lemma truncation_is_error_witness :
  Forall is_scalar [0x41] /\
  map to_uint8 [0x41] = flat_map encode_ref [0x41] /\
  [0xF0; 0x90] <> [] /\
  incomplete (map to_uint8 [0xF0; 0x90]) /\
  exists m,
    utf8.decode ([0x41] ++ [0xF0; 0x90]) = Done m /\
    input m = [] /\
    position ([0x41] ++ [0xF0; 0x90]) m = length ([0x41] ++ [0xF0; 0x90]) /\
    output m = [0x41] /\
    exists x tail,
      [0xF0; 0x90] = x :: tail /\
      sequence x tail = Stop [] /\
      snd (continuation tail (fst (initial_entry (to_uint8 x)))
                        (snd (initial_entry (to_uint8 x)))) = ERR.
Proof.
  assert (H1 : Forall is_scalar [0x41])
    by (constructor; [unfold is_scalar; lia | constructor]).
  assert (H2 : map to_uint8 [0x41] = flat_map encode_ref [0x41])
    by reflexivity.
  assert (H3 : [0xF0; 0x90] <> []) by discriminate.
  assert (H4 : incomplete (map to_uint8 [0xF0; 0x90])).
  { exists 0x10000, [0x80; 0x80].
    split; [unfold is_scalar; lia|]. split; [discriminate | reflexivity]. }
  split; [exact H1|]. split; [exact H2|]. split; [exact H3|].
  split; [exact H4|].
  exact (proj1 truncation_is_error [0x41] [0xF0; 0x90] [0x41] H1 H2 H3 H4).
Defined.

Lemma decoding_ascii (units : list Z) :
  Forall (fun b => 0 <= b < 0x80) units -> decoding units units [].
Proof.
  induction 1 as [|b units Hb Hall IH]; [constructor|].
  eapply decoding_emit; [|exact IH].
  unfold sequence. rewrite to_uint8_small by lia.
  destruct (b <? 128) eqn:E; [reflexivity | apply Z.ltb_ge in E; lia].
Qed.

(** C7. For N code units all below 0x80, decode writes exactly N code
    points, the code units themselves in input order, and returns the end of
    the input. *)
Theorem ascii_fast_path (units : list Z) :
  Forall (fun b => 0 <= b < 0x80) units ->
  exists m,
    utf8.decode units = Done m /\
    output m = units /\
    length (output m) = length units /\
    input m = [] /\
    position units m = length units.
Proof.
  intros H.
  destruct (decode_of_decoding _ _ _ (decoding_ascii units H))
    as (m & Hm & Hout & Hin).
  exists m. split; [exact Hm|]. split; [exact Hout|].
  split; [rewrite Hout; reflexivity|]. split; [exact Hin|].
  unfold position. rewrite Hin. simpl. lia.
Qed.

Lemma ascii_fast_path_witness :
  Forall (fun b => 0 <= b < 0x80) [0x48; 0x69; 0x00; 0x7F] /\
  exists m,
    utf8.decode [0x48; 0x69; 0x00; 0x7F] = Done m /\
    output m = [0x48; 0x69; 0x00; 0x7F] /\
    length (output m) = length [0x48; 0x69; 0x00; 0x7F] /\
    input m = [] /\
    position [0x48; 0x69; 0x00; 0x7F] m = length [0x48; 0x69; 0x00; 0x7F].
Proof.
  assert (H : Forall (fun b => 0 <= b < 0x80) [0x48; 0x69; 0x00; 0x7F])
    by (repeat constructor; lia).
  split; [exact H | exact (ascii_fast_path _ H)].
Defined.

(** C8. On every input decode completes without a fault, and every table
    access it makes is inside its array: initial_state (62 entries) at
    octet - 0xC2 for an octet in 0xC2..0xFF, octet_category (256 entries) at
    an octet in 0..255, state_transition (108 entries) at state + category
    with the state one of 24, 36, 48, 60, 72, 84, 96 and the category in
    0..11, so at most 107. *)
Theorem table_accesses_in_bounds (units : list Z) :
  exists m,
    utf8.decode units = Done m /\
    Forall in_bounds (log m) /\
    length lookup.initial_state = 62%nat /\
    length lookup.octet_category = 256%nat /\
    length lookup.state_transition = 108%nat.
Proof.
  destruct (decode_result units)
    as (m & c & pre & bad & Hm & _ & _ & _ & Hb & _).
  exists m. repeat split; assumption.
Qed.

(** C9. decode terminates on every input: with any fuel above the input
    length it returns the same machine state. The octets read are exactly
    the code units in front of the returned position, each read once and in
    order, so the number of reads is the returned position, which lies
    between the start and the end of the input. Every iteration of the
    outer loop reads at least one code unit; an iteration of the inner loop
    reads exactly one code unit, or, at the end of the input, sets the state
    to ERR and leaves the loop without reading. *)
Theorem decode_terminates (units : list Z) :
  exists m,
    utf8.decode units = Done m /\
    (forall fuel,
       (length units < fuel)%nat ->
       utf8.decode_loop fuel (Machine units [] []) = Done (tt, m)) /\
    reads (log m) = map to_uint8 (firstn (position units m) units) /\
    length (reads (log m)) = position units m /\
    (0 <= position units m <= length units)%nat /\
    units = firstn (position units m) units ++ input m /\
    (forall fuel x rest out lg,
       (length rest < fuel)%nat ->
       exists c r evs,
         x :: rest = (x :: c) ++ r /\
         reads evs = map to_uint8 (x :: c) /\
         (utf8.decode_loop (S fuel) (Machine (x :: rest) out lg)
          = Done (tt, Machine r out (lg ++ evs))
          \/
          exists cp,
            utf8.decode_loop (S fuel) (Machine (x :: rest) out lg)
            = utf8.decode_loop fuel (Machine r (out ++ [cp]) (lg ++ evs)))) /\
    (forall fuel cp s x rest out lg,
       state_val ERR < state_val s ->
       exists evs,
         reads evs = [to_uint8 x] /\
         utf8.continuation_loop (S fuel) cp s (Machine (x :: rest) out lg)
         = utf8.continuation_loop fuel
             (utf8.update_code_point cp (to_uint8 x))
             (transition s (to_uint8 x))
             (Machine rest out (lg ++ evs))) /\
    (forall fuel cp s out lg,
       state_val ERR < state_val s ->
       utf8.continuation_loop (S fuel) cp s (Machine [] out lg)
       = Done ((cp, ERR), Machine [] out lg)).
Proof.
  destruct (decode_result units)
    as (m & c & pre & bad & Hm & Hu & _ & Hreads & _).
  assert (Hpos : position units m = length c).
  { unfold position. rewrite Hu at 1. rewrite length_app. lia. }
  assert (Hfirst : firstn (position units m) units = c).
  { rewrite Hpos. rewrite Hu at 1. rewrite firstn_app, Nat.sub_diag.
    rewrite firstn_all. simpl. apply app_nil_r. }
  exists m. split; [exact Hm|].
  split.
  { intros fuel Hfuel.
    rewrite (decode_loop_fuel fuel (S (length units))) by lia.
    unfold utf8.decode in Hm.
    destruct (utf8.decode_loop (S (length units)) (Machine units [] []))
      as [[[] m']| |]; try discriminate Hm.
    injection Hm as ->. reflexivity. }
  rewrite Hfirst. split; [exact Hreads|].
  split; [rewrite Hreads, length_map; symmetry; exact Hpos|].
  split; [unfold position; lia|].
  split; [exact Hu|].
  split.
  { intros fuel x rest out lg Hfuel.
    destruct (sequence_consumes x rest) as (c' & Hc' & Hr' & _).
    rewrite decode_loop_eq by exact Hfuel.
    exists c', (remainder (sequence x rest)), (sequence_events x rest).
    split; [exact Hc'|]. split; [exact Hr'|].
    destruct (sequence x rest) as [cp r|r]; simpl remainder;
      [right; exists cp; reflexivity | left; reflexivity]. }
  split.
  { intros fuel cp s x rest out lg Hs.
    rewrite continuation_loop_read by exact Hs.
    eexists. split; [|reflexivity]. reflexivity. }
  intros fuel cp s out lg Hs. apply continuation_loop_at_end. exact Hs.
Qed.

Lemma least_units_bounds (v : Z) :
  (1 <= least_units v <= length (encode_ref v))%nat.
Proof.
  unfold least_units, encode_ref.
  destruct (v <? 128); [simpl; lia|].
  destruct (v <? 2048); [simpl; lia|].
  destruct (v <? 65536); simpl; lia.
Qed.

Lemma least_units_sum (out : list Z) :
  (length out <= list_sum (map least_units out)
   <= length (flat_map encode_ref out))%nat.
Proof.
  induction out as [|v out IH]; simpl; [lia|].
  rewrite length_app. pose proof (least_units_bounds v). lia.
Qed.

(** C10. For N code units decode writes at most N code points: the number
    written is at most the number of code units consumed, one for each
    ASCII code point and at least two for every other one. *)
Theorem at_most_one_code_point_per_unit (units : list Z) :
  exists m,
    utf8.decode units = Done m /\
    (length (output m) <= length units)%nat /\
    (length (output m) <= list_sum (map least_units (output m)))%nat /\
    (list_sum (map least_units (output m)) <= position units m)%nat /\
    (position units m <= length units)%nat.
Proof.
  destruct (decode_result units)
    as (m & c & pre & bad & Hm & Hu & Hc & _ & _ & _ & Hpre & _).
  assert (Hpos : position units m = (length pre + length bad)%nat).
  { unfold position. rewrite Hu at 1. subst c. rewrite !length_app. lia. }
  assert (Hlen : (position units m <= length units)%nat)
    by (unfold position; lia).
  pose proof (least_units_sum (output m)) as Hsum.
  rewrite <- Hpre, length_map in Hsum.
  exists m. split; [exact Hm|]. repeat split; lia.
Qed.

(** ** Test vectors *)

Example encode_ref_copyright : encode_ref 0xA9 = [0xC2; 0xA9].
Proof. reflexivity. Qed.

Example encode_ref_euro : encode_ref 0x20AC = [0xE2; 0x82; 0xAC].
Proof. reflexivity. Qed.

Example encode_ref_max : encode_ref 0x10FFFF = [0xF4; 0x8F; 0xBF; 0xBF].
Proof. reflexivity. Qed.

Example decode_max :
  exists m,
    utf8.decode [0xF4; 0x8F; 0xBF; 0xBF] = Done m /\
    output m = [0x10FFFF] /\ input m = [].
Proof. eexists. split; [reflexivity|]. split; reflexivity. Qed.

Example decode_signed_units :
  exists m,
    utf8.decode [-30; -126; -84] = Done m /\
    output m = [0x20AC] /\ input m = [].
Proof. eexists. split; [reflexivity|]. split; reflexivity. Qed.

Example decode_beyond_max :
  exists m,
    utf8.decode [0xF4; 0x90; 0x80; 0x80] = Done m /\
    output m = [] /\ position [0xF4; 0x90; 0x80; 0x80] m = 2%nat.
Proof. eexists. split; [reflexivity|]. split; reflexivity. Qed.

Example decode_resumes :
  exists m1 m2 m3,
    utf8.decode [0x41] = Done m1 /\ output m1 = [0x41] /\ input m1 = [] /\
    utf8.decode [0xFF] = Done m2 /\ output m2 = [] /\
    utf8.decode [0x42] = Done m3 /\ output m3 = [0x42] /\ input m3 = [].
Proof. do 3 eexists. repeat split; reflexivity. Qed.

(** * Further properties of decode *)

(** ** Ill-formed sequences, seen by the loops *)

Lemma incomplete_valid_prefix (p : list Z) : incomplete p -> valid_prefix p.
Proof. intros (v & suffix & Hv & _ & He). exists v, suffix. auto. Qed.

Lemma accumulate_cons (cp c : Z) (cs : list Z) :
  accumulate cp (c :: cs) = accumulate (utf8.update_code_point cp c) cs.
Proof. reflexivity. Qed.

Lemma continuation_decided (q : list Z) :
  forall y r cp s,
    state_val ERR < state_val (run s (map to_uint8 q)) ->
    state_val (run s (map to_uint8 (q ++ [y]))) <= state_val ERR ->
    continuation ((q ++ [y]) ++ r) cp s
    = (r, accumulate cp (map to_uint8 (q ++ [y])),
       run s (map to_uint8 (q ++ [y]))).
Proof.
  induction q as [|c q IH]; intros y r cp s Hq Hy.
  - simpl app. simpl map in *. rewrite run_cons in Hy.
    rewrite continuation_cons by exact Hq.
    rewrite continuation_stuck by exact Hy.
    rewrite run_cons. reflexivity.
  - pose proof (run_above _ _ Hq) as Hs.
    simpl app. simpl map in *. rewrite run_cons in Hq, Hy.
    rewrite continuation_cons by exact Hs.
    rewrite (IH y r _ _ Hq Hy). rewrite run_cons, accumulate_cons.
    reflexivity.
Qed.

(* The state in which a proper prefix of an encoding leaves the automaton. *)
Lemma incomplete_pending (x : Z) (q : list Z) :
  incomplete (x :: q) ->
  0xC2 <= x <= 0xF4 /\
  state_val ERR < state_val (run (snd (initial_entry x)) q).
Proof.
  intros (v & suffix & Hv & Hsuf & He). simpl in He.
  destruct (encode_ref_leading v _ _ Hv He)
    as [(_ & Hnil & _)|(Hl & Hrun & _ & _)].
  - apply app_eq_nil in Hnil. destruct Hnil as [_ Hnil]. congruence.
  - split; [exact Hl|]. rewrite run_app in Hrun.
    destruct (Z_lt_ge_dec (state_val ERR)
                (state_val (run (snd (initial_entry x)) q))) as [|Hle];
      [assumption|].
    rewrite run_stuck in Hrun by (try lia; assumption). discriminate Hrun.
Qed.

Lemma sequence_ill_formed (bad : list Z) :
  ill_formed (map to_uint8 bad) ->
  exists x tail,
    bad = x :: tail /\ forall r, sequence x (tail ++ r) = Stop r.
Proof.
  intros (p' & y' & Hbad & Hinc & Hnot).
  apply map_eq_app in Hbad. destruct Hbad as (p & l & -> & <- & Hl).
  destruct l as [|y [|y2 l]]; try discriminate Hl. injection Hl as <-.
  destruct p as [|x q].
  - exists y, []. split; [reflexivity|]. intros r. simpl app in *.
    pose proof (to_uint8_range y) as Hy.
    destruct (sequence_cases y r)
      as [[Ho Hs]|[[Ho Hs]|(Ho & Hs0 & _)]]; [| exact Hs |].
    + exfalso. apply Hnot. exists (to_uint8 y), [].
      split; [unfold is_scalar; lia|].
      rewrite encode_ref_1 by lia. reflexivity.
    + exfalso. apply Hnot. apply incomplete_valid_prefix.
      apply pending_incomplete; [lia | exact Hs0].
  - exists x, (q ++ [y]). split; [reflexivity|]. intros r.
    simpl map in *.
    destruct (incomplete_pending _ _ Hinc) as [Hx Hq].
    set (s0 := snd (initial_entry (to_uint8 x))) in *.
    assert (Hy : run s0 (map to_uint8 (q ++ [y])) = ERR).
    { destruct (Z_lt_ge_dec (state_val ERR)
                  (state_val (run s0 (map to_uint8 (q ++ [y]))))) as [Hgo|Hend].
      - exfalso. apply Hnot. apply incomplete_valid_prefix.
        change (incomplete (to_uint8 x :: (map to_uint8 q ++ [to_uint8 y]))).
        replace (map to_uint8 q ++ [to_uint8 y]) with (map to_uint8 (q ++ [y]))
          by (rewrite map_app; reflexivity).
        apply pending_incomplete; [lia | exact Hgo].
      - destruct (run_final s0 (map to_uint8 (q ++ [y])) ltac:(lia))
          as [Hb|He]; [|exact He].
        exfalso. apply Hnot.
        apply run_completes in Hb; [|exact (run_above _ _ Hq)].
        destruct (completes_sound (to_uint8 x) _ ltac:(lia) Hb)
          as (Hsc & _ & He).
        eexists _, []. split; [exact Hsc|].
        rewrite He, map_app, app_nil_r. reflexivity. }
    rewrite sequence_leading by lia. fold s0.
    rewrite (continuation_decided q y r _ s0 Hq) by (rewrite Hy; simpl; lia).
    rewrite Hy. reflexivity.
Qed.

Lemma decoding_ill_formed (out pre bad r : list Z) :
  Forall is_scalar out ->
  map to_uint8 pre = flat_map encode_ref out ->
  ill_formed (map to_uint8 bad) ->
  decoding (pre ++ bad ++ r) out r.
Proof.
  intros Hsc Hpre Hbad.
  destruct (sequence_ill_formed bad Hbad) as (x & tail & -> & Hs).
  rewrite <- (app_nil_r out). apply decoding_valid; [exact Hsc | exact Hpre|].
  simpl. apply decoding_stop. apply Hs.
Qed.

(** ** Whole strings *)

(** X1. Decoding the concatenated reference encodings of any list of
    scalar values writes exactly that list and returns the end of the
    input. *)
Theorem string_round_trip (vs : list Z) :
  Forall is_scalar vs ->
  exists m,
    utf8.decode (flat_map encode_ref vs) = Done m /\
    output m = vs /\
    input m = [] /\
    position (flat_map encode_ref vs) m = length (flat_map encode_ref vs).
Proof.
  intros H.
  assert (Hd : decoding (flat_map encode_ref vs ++ []) (vs ++ []) []).
  { apply decoding_valid; [exact H| |constructor].
    apply flat_map_encode_octets. exact H. }
  rewrite !app_nil_r in Hd.
  destruct (decode_of_decoding _ _ _ Hd) as (m & Hm & Hout & Hin).
  exists m. repeat split; try assumption.
  unfold position. rewrite Hin. simpl. lia.
Qed.

Lemma string_round_trip_witness :
  Forall is_scalar [0x48; 0xE9; 0x20AC; 0x1F600] /\
  exists m,
    utf8.decode (flat_map encode_ref [0x48; 0xE9; 0x20AC; 0x1F600]) = Done m /\
    output m = [0x48; 0xE9; 0x20AC; 0x1F600] /\
    input m = [] /\
    position (flat_map encode_ref [0x48; 0xE9; 0x20AC; 0x1F600]) m
    = length (flat_map encode_ref [0x48; 0xE9; 0x20AC; 0x1F600]).
Proof.
  assert (H : Forall is_scalar [0x48; 0xE9; 0x20AC; 0x1F600])
    by (repeat constructor; unfold is_scalar; lia).
  split; [exact H | exact (string_round_trip _ H)].
Defined.

(** X2. decode stops at the first ill-formed sequence: for an input made of
    well-formed sequences [pre], an ill-formed sequence [bad] and any code
    units [r] behind it, decode writes exactly the code points of [pre] and
    returns the iterator in front of [r], one past the last code unit of
    [bad]. *)
Theorem stops_at_first_ill_formed (out pre bad r : list Z) :
  Forall is_scalar out ->
  map to_uint8 pre = flat_map encode_ref out ->
  ill_formed (map to_uint8 bad) ->
  exists m,
    utf8.decode (pre ++ bad ++ r) = Done m /\
    output m = out /\
    input m = r /\
    position (pre ++ bad ++ r) m = (length pre + length bad)%nat.
Proof.
  intros Hsc Hpre Hbad.
  destruct (decode_of_decoding _ _ _ (decoding_ill_formed out pre bad r Hsc Hpre Hbad))
    as (m & Hm & Hout & Hin).
  exists m. repeat split; try assumption.
  unfold position. rewrite Hin, !length_app. lia.
Qed.

Lemma stops_at_first_ill_formed_witness :
  Forall is_scalar [0x41; 0xE9] /\
  map to_uint8 [0x41; 0xC3; 0xA9] = flat_map encode_ref [0x41; 0xE9] /\
  ill_formed (map to_uint8 [0xFF]) /\
  exists m,
    utf8.decode ([0x41; 0xC3; 0xA9] ++ [0xFF] ++ [0x42; 0x43]) = Done m /\
    output m = [0x41; 0xE9] /\
    input m = [0x42; 0x43] /\
    position ([0x41; 0xC3; 0xA9] ++ [0xFF] ++ [0x42; 0x43]) m
    = Nat.add (length [0x41; 0xC3; 0xA9]) (length [0xFF]).
Proof.
  assert (H1 : Forall is_scalar [0x41; 0xE9])
    by (repeat constructor; unfold is_scalar; lia).
  assert (H2 : map to_uint8 [0x41; 0xC3; 0xA9] = flat_map encode_ref [0x41; 0xE9])
    by reflexivity.
  assert (H3 : ill_formed (map to_uint8 [0xFF])).
  { exists [], 0xFF. split; [reflexivity|].
    split; [apply incomplete_nil | apply not_leading; lia]. }
  split; [exact H1|]. split; [exact H2|]. split; [exact H3|].
  exact (stops_at_first_ill_formed _ _ _ [0x42; 0x43] H1 H2 H3).
Defined.

(** X3. Behind well-formed sequences decode carries on as if it had been
    started there: for [pre] made of the encodings of [out], decoding
    [pre ++ rest] writes [out] followed by what decoding [rest] alone
    writes, and returns the iterator that decoding [rest] alone returns. *)
Theorem decode_after_well_formed (out pre rest : list Z) :
  Forall is_scalar out ->
  map to_uint8 pre = flat_map encode_ref out ->
  exists m_rest m,
    utf8.decode rest = Done m_rest /\
    utf8.decode (pre ++ rest) = Done m /\
    output m = out ++ output m_rest /\
    input m = input m_rest /\
    position (pre ++ rest) m = (length pre + position rest m_rest)%nat.
Proof.
  intros Hsc Hpre.
  destruct (decode_decoding rest) as (mr & Hmr & Hdr & c & Hc & _).
  destruct (decode_of_decoding _ _ _ (decoding_valid out pre rest _ _ Hsc Hpre Hdr))
    as (m & Hm & Hout & Hin).
  exists mr, m. repeat split; try assumption.
  unfold position. rewrite Hin, length_app.
  apply (f_equal (@length Z)) in Hc. rewrite length_app in Hc. lia.
Qed.

Lemma decode_after_well_formed_witness :
  Forall is_scalar [0x20AC] /\
  map to_uint8 [0xE2; 0x82; 0xAC] = flat_map encode_ref [0x20AC] /\
  exists m_rest m,
    utf8.decode [0x41; 0xC0; 0x42] = Done m_rest /\
    utf8.decode ([0xE2; 0x82; 0xAC] ++ [0x41; 0xC0; 0x42]) = Done m /\
    output m = [0x20AC] ++ output m_rest /\
    input m = input m_rest /\
    position ([0xE2; 0x82; 0xAC] ++ [0x41; 0xC0; 0x42]) m
    = Nat.add (length [0xE2; 0x82; 0xAC]) (position [0x41; 0xC0; 0x42] m_rest).
Proof.
  assert (H1 : Forall is_scalar [0x20AC])
    by (repeat constructor; unfold is_scalar; lia).
  assert (H2 : map to_uint8 [0xE2; 0x82; 0xAC] = flat_map encode_ref [0x20AC])
    by reflexivity.
  split; [exact H1|]. split; [exact H2|].
  exact (decode_after_well_formed _ _ [0x41; 0xC0; 0x42] H1 H2).
Defined.

(** X4. What lies behind the returned position has no influence: when
    decode returns an iterator that is not the end, replacing the unread
    code units by any others gives the same code points, the same reads and
    an iterator in front of the replacement. *)
Theorem unread_units_do_not_matter (units : list Z) :
  exists m consumed,
    utf8.decode units = Done m /\
    units = consumed ++ input m /\
    (input m <> [] ->
     forall r',
     exists m',
       utf8.decode (consumed ++ r') = Done m' /\
       output m' = output m /\
       input m' = r' /\
       reads (log m') = reads (log m)).
Proof.
  destruct (decode_result units)
    as (m & c & pre & bad & Hm & Hu & Hc & Hreads & _ & Hsc & Hpre & Hcase).
  exists m, c. split; [exact Hm|]. split; [exact Hu|].
  intros Hrest r'.
  destruct Hcase as [[_ Hnil]|[Hill|[Hnil _]]]; try contradiction.
  pose proof (decoding_ill_formed _ _ _ r' Hsc Hpre Hill) as Hd.
  rewrite app_assoc, <- Hc in Hd.
  destruct (decode_result (c ++ r'))
    as (m' & c' & _ & _ & Hm' & Hu' & _ & Hreads' & _).
  destruct (decode_of_decoding _ _ _ Hd) as (m'' & Hm'' & Hout & Hin).
  rewrite Hm' in Hm''. injection Hm'' as <-.
  exists m'. split; [exact Hm'|]. split; [exact Hout|]. split; [exact Hin|].
  rewrite Hin in Hu'. apply app_inv_tail in Hu'. subst c'.
  rewrite Hreads, Hreads'. reflexivity.
Qed.

Lemma unread_units_do_not_matter_witness :
  exists m consumed,
    utf8.decode [0x41; 0xE2; 0x28; 0x42] = Done m /\
    [0x41; 0xE2; 0x28; 0x42] = consumed ++ input m /\
    input m <> [] /\
    forall r',
    exists m',
      utf8.decode (consumed ++ r') = Done m' /\
      output m' = output m /\
      input m' = r' /\
      reads (log m') = reads (log m).
Proof.
  destruct (unread_units_do_not_matter [0x41; 0xE2; 0x28; 0x42])
    as (m & c & Hm & Hu & H).
  exists m, c. split; [exact Hm|]. split; [exact Hu|].
  assert (Hrest : input m <> []).
  { vm_compute in Hm. injection Hm as <-. discriminate. }
  split; [exact Hrest | exact (H Hrest)].
Defined.

(** X5. More input never takes back what has been written: the code points
    written for [a] are the beginning of the code points written for
    [a ++ b]. *)
Theorem output_grows_with_input (a b : list Z) :
  exists m_a m_ab more,
    utf8.decode a = Done m_a /\
    utf8.decode (a ++ b) = Done m_ab /\
    output m_ab = output m_a ++ more.
Proof.
  destruct (decode_result a)
    as (ma & c & pre & bad & Hma & Hu & Hc & _ & _ & Hsc & Hpre & Hcase).
  destruct Hcase as [[Hbad Hnil]|[Hill|[Hnil [_ Hinc]]]].
  - destruct (decode_decoding b) as (mb & _ & Hdb & _).
    destruct (decode_of_decoding _ _ _
                (decoding_valid _ pre b _ _ Hsc Hpre Hdb))
      as (m & Hm & Hout & _).
    exists ma, m, (output mb). split; [exact Hma|].
    split; [|exact Hout].
    rewrite Hu, Hc, Hbad, Hnil, !app_nil_r. exact Hm.
  - destruct (decode_of_decoding _ _ _
                (decoding_ill_formed _ _ _ (input ma ++ b) Hsc Hpre Hill))
      as (m & Hm & Hout & _).
    exists ma, m, []. split; [exact Hma|].
    split; [|rewrite app_nil_r; exact Hout].
    rewrite Hu at 1. rewrite Hc, <- !app_assoc. exact Hm.
  - destruct (decode_decoding (bad ++ b)) as (mb & _ & Hdb & _).
    destruct (decode_of_decoding _ _ _
                (decoding_valid _ pre (bad ++ b) _ _ Hsc Hpre Hdb))
      as (m & Hm & Hout & _).
    exists ma, m, (output mb). split; [exact Hma|].
    split; [|exact Hout].
    rewrite Hu at 1. rewrite Hc, Hnil, app_nil_r, <- app_assoc. exact Hm.
Qed.

(** ** The output iterator and the state between calls *)

Lemma decode_loop_frame (fuel : nat) :
  forall units out lg out0 lg0 r o l,
    (length units < fuel)%nat ->
    utf8.decode_loop fuel (Machine units out lg) = Done (tt, Machine r o l) ->
    utf8.decode_loop fuel (Machine units (out0 ++ out) (lg0 ++ lg))
    = Done (tt, Machine r (out0 ++ o) (lg0 ++ l)).
Proof.
  induction fuel as [|fuel IH]; intros units out lg out0 lg0 r o l Hlen H;
    [lia|].
  destruct units as [|x rest].
  - rewrite decode_loop_nil in *. injection H as <- <- <-. reflexivity.
  - simpl in Hlen. rewrite decode_loop_eq in * by lia.
    destruct (sequence_consumes x rest) as (c & Hc & _).
    destruct (sequence x rest) as [cp r1|r1].
    + simpl in Hc. apply (f_equal (@length Z)) in Hc. simpl in Hc.
      rewrite length_app in Hc.
      rewrite <- !app_assoc. apply IH; [lia | exact H].
    + injection H as <- <- <-. rewrite <- app_assoc. reflexivity.
Qed.

(** X6. decode keeps no state of its own and only appends: started with
    code points [out0] already written (and any log), it leaves them in
    place and adds exactly what it writes when started on an empty output,
    returning the same iterator. *)
Theorem decode_only_appends (units out0 : list Z) (lg0 : list event)
        (fuel : nat) :
  (length units < fuel)%nat ->
  exists m,
    utf8.decode units = Done m /\
    utf8.decode_loop fuel (Machine units out0 lg0)
    = Done (tt, Machine (input m) (out0 ++ output m) (lg0 ++ log m)).
Proof.
  intros Hfuel.
  destruct (decode_decoding units) as (m & Hm & _).
  exists m. split; [exact Hm|].
  unfold utf8.decode in Hm.
  destruct (utf8.decode_loop (S (length units)) (Machine units [] []))
    as [[[] m']| |] eqn:Hrun; try discriminate Hm.
  injection Hm as ->.
  rewrite (decode_loop_fuel (S (length units)) fuel) in Hrun by lia.
  destruct m as [r o l].
  pose proof (decode_loop_frame fuel units [] [] out0 lg0 r o l Hfuel Hrun) as H.
  rewrite !app_nil_r in H. exact H.
Qed.

Lemma decode_only_appends_witness :
  (length [0xC3; 0xA9; 0x80] < 7)%nat /\
  exists m,
    utf8.decode [0xC3; 0xA9; 0x80] = Done m /\
    utf8.decode_loop 7 (Machine [0xC3; 0xA9; 0x80] [0x41; 0x42] [Read 0x41])
    = Done (tt, Machine (input m) ([0x41; 0x42] ++ output m)
                        ([Read 0x41] ++ log m)).
Proof.
  assert (H : (length [0xC3; 0xA9; 0x80] < 7)%nat) by (simpl; lia).
  split; [exact H|].
  exact (decode_only_appends [0xC3; 0xA9; 0x80] [0x41; 0x42] [Read 0x41] 7 H).
Defined.

(** ** The tables against each other *)

(** X7. The ASCII test, the guard [octet < 0xC2] and the initial_state table
    together are the BGN row of state_transition: for every octet the state
    in which decode goes on is state_transition[BGN + octet_category[octet]]
    (END below 0x80, ERR from 0x80 to 0xC1, the state of the initial_state
    entry from 0xC2 on), and the code point of an initial_state entry with a
    state above ERR is the leading octet without its length marker. *)
Theorem initial_state_is_BGN_row (octet : Z) :
  0 <= octet <= 255 ->
  (octet < 0x80 -> transition BGN octet = END) /\
  (0x80 <= octet < 0xC2 -> transition BGN octet = ERR) /\
  (0xC2 <= octet ->
   exists tmp state,
     nth_error lookup.initial_state (Z.to_nat (octet - 0xC2))
     = Some (tmp, state) /\
     state = transition BGN octet /\
     (0xC2 <= octet <= 0xDF -> tmp = Z.land octet 0x1F) /\
     (0xE0 <= octet <= 0xEF -> tmp = Z.land octet 0x0F) /\
     (0xF0 <= octet <= 0xF4 -> tmp = Z.land octet 0x07) /\
     (0xF5 <= octet -> state = ERR)).
Proof.
  intros Ho.
  assert (Hall : all_below 256 (fun z =>
            (if z <? 0x80 then state_eqb (transition BGN z) END
             else if z <? 0xC2 then state_eqb (transition BGN z) ERR
             else
               state_eqb (snd (initial_entry z)) (transition BGN z)
               && (if z <=? 0xDF then fst (initial_entry z) =? Z.land z 0x1F
                   else if z <=? 0xEF
                        then fst (initial_entry z) =? Z.land z 0x0F
                        else if z <=? 0xF4
                             then fst (initial_entry z) =? Z.land z 0x07
                             else state_eqb (snd (initial_entry z)) ERR)))
          = true) by (vm_compute; reflexivity).
  pose proof (all_below_spec _ _ Hall octet ltac:(lia)) as H. cbv beta in H.
  destruct (octet <? 128) eqn:E1;
    [apply Z.ltb_lt in E1 | apply Z.ltb_ge in E1].
  { apply state_eqb_eq in H. repeat split; intros; try lia. exact H. }
  destruct (octet <? 194) eqn:E2;
    [apply Z.ltb_lt in E2 | apply Z.ltb_ge in E2].
  { apply state_eqb_eq in H. repeat split; intros; try lia. exact H. }
  apply andb_true_iff in H. destruct H as [Hs Ht].
  apply state_eqb_eq in Hs.
  split; [intros; lia|]. split; [intros; lia|]. intros _.
  exists (fst (initial_entry octet)), (snd (initial_entry octet)).
  split.
  { rewrite (nth_error_nth' lookup.initial_state (0, ERR))
      by (rewrite initial_state_length; lia).
    fold (initial_entry octet). destruct (initial_entry octet). reflexivity. }
  split; [exact Hs|].
  destruct (octet <=? 223) eqn:E3;
    [apply Z.leb_le in E3; apply Z.eqb_eq in Ht;
     repeat split; intros; try lia; exact Ht
    |apply Z.leb_gt in E3].
  destruct (octet <=? 239) eqn:E4;
    [apply Z.leb_le in E4; apply Z.eqb_eq in Ht;
     repeat split; intros; try lia; exact Ht
    |apply Z.leb_gt in E4].
  destruct (octet <=? 244) eqn:E5;
    [apply Z.leb_le in E5; apply Z.eqb_eq in Ht;
     repeat split; intros; try lia; exact Ht
    |apply Z.leb_gt in E5].
  apply state_eqb_eq in Ht. repeat split; intros; try lia. exact Ht.
Qed.

Lemma initial_state_is_BGN_row_witness :
  0 <= 0xED <= 255 /\
  (0xED < 0x80 -> transition BGN 0xED = END) /\
  (0x80 <= 0xED < 0xC2 -> transition BGN 0xED = ERR) /\
  (0xC2 <= 0xED ->
   exists tmp state,
     nth_error lookup.initial_state (Z.to_nat (0xED - 0xC2))
     = Some (tmp, state) /\
     state = transition BGN 0xED /\
     (0xC2 <= 0xED <= 0xDF -> tmp = Z.land 0xED 0x1F) /\
     (0xE0 <= 0xED <= 0xEF -> tmp = Z.land 0xED 0x0F) /\
     (0xF0 <= 0xED <= 0xF4 -> tmp = Z.land 0xED 0x07) /\
     (0xF5 <= 0xED -> state = ERR)).
Proof.
  split; [lia|]. apply (initial_state_is_BGN_row 0xED). lia.
Defined.

(** ** Bounds on one pass *)

Lemma pending_step (s : dfa_state_t) (c : Z) :
  state_val ERR < state_val s ->
  (pending (closed_transition s c) < pending s)%nat.
Proof.
  intros Hs. destruct s; simpl in Hs; try lia;
    cbn [closed_transition]; destruct (between _ _ c); simpl; lia.
Qed.

Lemma continuation_bound (units : list Z) :
  forall cp s,
    (length (fst (fst (continuation units cp s))) <= length units
     <= length (fst (fst (continuation units cp s))) + pending s)%nat.
Proof.
  induction units as [|x rest IH]; intros cp s;
    destruct (Z_lt_ge_dec (state_val ERR) (state_val s)) as [Hs|Hs].
  - rewrite continuation_nil by exact Hs. simpl. lia.
  - rewrite continuation_stuck by lia. simpl. lia.
  - rewrite continuation_cons by exact Hs.
    pose proof (IH (utf8.update_code_point cp (to_uint8 x))
                   (closed_transition s (to_uint8 x))) as H.
    pose proof (pending_step s (to_uint8 x) Hs). simpl length. lia.
  - rewrite continuation_stuck by lia. simpl. lia.
Qed.

Lemma initial_pending (o : Z) :
  0xC2 <= o <= 0xFF -> (pending (snd (initial_entry o)) <= 3)%nat.
Proof. intros _. destruct (snd (initial_entry o)); simpl; lia. Qed.

(** X8. One pass of the outer loop reads at least one and at most four code
    units, and the iterator advances by exactly the number of code units
    read, whether the pass ends in a return or in a written code point. *)
Theorem pass_reads_at_most_four (fuel : nat) (x : Z) (rest out : list Z)
        (lg : list event) :
  (length rest < fuel)%nat ->
  exists r evs,
    (utf8.decode_loop (S fuel) (Machine (x :: rest) out lg)
     = Done (tt, Machine r out (lg ++ evs))
     \/
     exists cp,
       utf8.decode_loop (S fuel) (Machine (x :: rest) out lg)
       = utf8.decode_loop fuel (Machine r (out ++ [cp]) (lg ++ evs))) /\
    (1 <= length (reads evs) <= 4)%nat /\
    length (x :: rest) = (length (reads evs) + length r)%nat.
Proof.
  intros Hfuel. rewrite decode_loop_eq by exact Hfuel.
  destruct (sequence_consumes x rest) as (c & Hc & Hr & _).
  exists (remainder (sequence x rest)), (sequence_events x rest).
  assert (Hlen : length (x :: rest)
                 = (length (reads (sequence_events x rest))
                    + length (remainder (sequence x rest)))%nat).
  { rewrite Hr, length_map. rewrite Hc at 1. apply length_app. }
  assert (Hrem : (length rest
                  <= length (remainder (sequence x rest)) + 3)%nat).
  { unfold sequence. pose proof (to_uint8_range x) as Hx.
    destruct (to_uint8 x <? 128); [simpl; lia|].
    destruct (to_uint8 x <? 194) eqn:E; [simpl; lia|].
    apply Z.ltb_ge in E.
    pose proof (initial_pending (to_uint8 x) ltac:(lia)) as Hp.
    destruct (initial_entry (to_uint8 x)) as [tmp s0]. cbn [snd] in Hp.
    pose proof (continuation_bound rest tmp s0) as Hb.
    destruct (continuation rest tmp s0) as [[r cp] s]. cbn [fst] in Hb.
    destruct (state_eqb s ERR); simpl; lia. }
  split.
  { destruct (sequence x rest) as [cp r|r]; simpl remainder;
      [right; exists cp; reflexivity | left; reflexivity]. }
  split; [|exact Hlen].
  assert (Hone : length (reads (sequence_events x rest)) = S (length c))
    by (rewrite Hr, length_map; reflexivity).
  simpl length in Hlen. lia.
Qed.

Lemma pass_reads_at_most_four_witness :
  (length [0x9F; 0x98; 0x80; 0x41] < 5)%nat /\
  exists r evs,
    (utf8.decode_loop 6 (Machine (0xF0 :: [0x9F; 0x98; 0x80; 0x41]) [] [])
     = Done (tt, Machine r [] ([] ++ evs))
     \/
     exists cp,
       utf8.decode_loop 6 (Machine (0xF0 :: [0x9F; 0x98; 0x80; 0x41]) [] [])
       = utf8.decode_loop 5 (Machine r ([] ++ [cp]) ([] ++ evs))) /\
    (1 <= length (reads evs) <= 4)%nat /\
    length (0xF0 :: [0x9F; 0x98; 0x80; 0x41])
    = (length (reads evs) + length r)%nat.
Proof.
  assert (H : (length [0x9F; 0x98; 0x80; 0x41] < 5)%nat) by (simpl; lia).
  split; [exact H|].
  exact (pass_reads_at_most_four 5 0xF0 [0x9F; 0x98; 0x80; 0x41] [] [] H).
Defined.

Lemma headroom_range (s : dfa_state_t) : 0 < headroom s <= 2 ^ 21.
Proof. destruct s; vm_compute; split; congruence. Qed.

Lemma headroom_final (s : dfa_state_t) :
  state_val s <= state_val ERR -> headroom s = 2 ^ 21.
Proof. destruct s; simpl; intros H; try lia; reflexivity. Qed.

Lemma headroom_step (s : dfa_state_t) (c : Z) :
  state_val ERR < state_val s ->
  64 * headroom s <= headroom (closed_transition s c).
Proof.
  intros Hs. destruct s; simpl in Hs; try lia;
    cbn [closed_transition]; destruct (between _ _ c);
    vm_compute; congruence.
Qed.

Lemma initial_headroom (o : Z) :
  0xC2 <= o <= 0xFF ->
  0 <= fst (initial_entry o) < headroom (snd (initial_entry o)).
Proof.
  intros Ho.
  destruct (leading_cases o Ho)
    as [C|[C|[[C C']|[C|[C|[C|[C|C]]]]]]];
    [rewrite initial_two by lia
    |subst o; rewrite initial_E0
    |rewrite initial_three by lia
    |subst o; rewrite initial_ED
    |subst o; rewrite initial_F0
    |rewrite initial_four by lia
    |subst o; rewrite initial_F4
    |rewrite initial_rejected by lia];
    cbn [fst snd];
    match goal with
    | |- _ <= _ < headroom ?s =>
        let h := eval vm_compute in (headroom s) in
        change (headroom s) with h
    end; lia.
Qed.

Lemma continuation_exact (units : list Z) :
  forall cp s,
    0 <= cp < headroom s ->
    exists consumed,
      units = consumed ++ fst (fst (continuation units cp s)) /\
      snd (fst (continuation units cp s))
      = fold_left (fun a o => a * 64 + o mod 64) (map to_uint8 consumed) cp /\
      0 <= snd (fst (continuation units cp s)) < 2 ^ 21.
Proof.
  induction units as [|x rest IH]; intros cp s Hcp;
    pose proof (headroom_range s) as Hh;
    destruct (Z_lt_ge_dec (state_val ERR) (state_val s)) as [Hs|Hs].
  - rewrite continuation_nil by exact Hs. exists []. simpl.
    repeat split; lia.
  - rewrite continuation_stuck by lia. exists []. simpl.
    repeat split; lia.
  - rewrite continuation_cons by exact Hs.
    pose proof (headroom_step s (to_uint8 x) Hs) as Hstep.
    assert (Hup : utf8.update_code_point cp (to_uint8 x)
                  = cp * 64 + to_uint8 x mod 64)
      by (apply update_code_point_arith; lia).
    pose proof (Z.mod_pos_bound (to_uint8 x) 64 ltac:(lia)) as Hm.
    destruct (IH (utf8.update_code_point cp (to_uint8 x))
                 (closed_transition s (to_uint8 x)) ltac:(lia))
      as (c & Hc & Hval & Hb).
    exists (x :: c). split; [simpl; congruence|].
    split; [rewrite Hval, Hup; reflexivity | exact Hb].
  - rewrite continuation_stuck by lia. exists []. simpl.
    rewrite headroom_final in Hcp by lia. repeat split; lia.
Qed.

(** X9. The 32-bit shift in the inner loop never loses a bit: started from
    an initial_state entry, the inner loop leaves a code point below 2^21
    that is the exact accumulation, six bits per code unit read, of the
    entry and the low six bits of the code units, on every input and
    whether the sequence turns out well-formed or not. *)
Theorem code_point_never_wraps (fuel : nat) (x : Z) (rest out : list Z)
        (lg : list event) :
  0xC2 <= to_uint8 x ->
  (length rest < fuel)%nat ->
  exists consumed r cp s lg',
    rest = consumed ++ r /\
    utf8.continuation_loop fuel (fst (initial_entry (to_uint8 x)))
      (snd (initial_entry (to_uint8 x))) (Machine rest out lg)
    = Done ((cp, s), Machine r out lg') /\
    cp = fold_left (fun a o => a * 64 + o mod 64) (map to_uint8 consumed)
                   (fst (initial_entry (to_uint8 x))) /\
    0 <= cp < 2 ^ 21.
Proof.
  intros Hx Hfuel. pose proof (to_uint8_range x) as Hr.
  rewrite continuation_loop_eq by exact Hfuel.
  destruct (continuation_exact rest _ _
              (initial_headroom (to_uint8 x) ltac:(lia)))
    as (c & Hc & Hval & Hb).
  destruct (continuation rest _ _) as [[r cp] s]. cbn [fst snd] in *.
  exists c, r, cp, s. eexists. repeat split; try eassumption; lia.
Qed.

Lemma code_point_never_wraps_witness :
  0xC2 <= to_uint8 0xF4 /\
  (length [0xBF; 0xBF; 0xBF; 0xBF] < 5)%nat /\
  exists consumed r cp s lg',
    [0xBF; 0xBF; 0xBF; 0xBF] = consumed ++ r /\
    utf8.continuation_loop 5 (fst (initial_entry (to_uint8 0xF4)))
      (snd (initial_entry (to_uint8 0xF4)))
      (Machine [0xBF; 0xBF; 0xBF; 0xBF] [] [])
    = Done ((cp, s), Machine r [] lg') /\
    cp = fold_left (fun a o => a * 64 + o mod 64) (map to_uint8 consumed)
                   (fst (initial_entry (to_uint8 0xF4))) /\
    0 <= cp < 2 ^ 21.
Proof.
  assert (H1 : 0xC2 <= to_uint8 0xF4) by (vm_compute; congruence).
  assert (H2 : (length [0xBF; 0xBF; 0xBF; 0xBF] < 5)%nat) by (simpl; lia).
  split; [exact H1|]. split; [exact H2|].
  exact (code_point_never_wraps 5 0xF4 [0xBF; 0xBF; 0xBF; 0xBF] [] [] H1 H2).
Defined.

(** ** The ASCII path and progress *)

Lemma decode_loop_ascii (units : list Z) :
  forall fuel out lg,
    Forall (fun b => 0 <= b < 0x80) units ->
    (length units < fuel)%nat ->
    utf8.decode_loop fuel (Machine units out lg)
    = Done (tt, Machine [] (out ++ units) (lg ++ map Read units)).
Proof.
  induction units as [|b units IH]; intros fuel out lg Hall Hfuel.
  - rewrite decode_loop_nil, !app_nil_r. reflexivity.
  - inversion Hall as [|? ? Hb Hrest]; subst.
    destruct fuel as [|fuel]; [simpl in Hfuel; lia|]. simpl in Hfuel.
    rewrite decode_loop_eq by lia.
    unfold sequence, sequence_events. rewrite to_uint8_small by lia.
    destruct (b <? 128) eqn:E; [|apply Z.ltb_ge in E; lia].
    rewrite IH by (try assumption; lia).
    simpl map. rewrite <- !app_assoc. reflexivity.
Qed.

(** X10. On code units that are all below 0x80 decode consults no table at
    all: its log holds one read per code unit, in order, and nothing
    else. *)
Theorem ascii_consults_no_table (units : list Z) :
  Forall (fun b => 0 <= b < 0x80) units ->
  exists m,
    utf8.decode units = Done m /\
    log m = map Read units /\
    (forall t index, ~ In (Lookup t index) (log m)).
Proof.
  intros H. unfold utf8.decode.
  rewrite (decode_loop_ascii units _ [] [] H) by lia. simpl.
  eexists. split; [reflexivity|]. simpl. split; [reflexivity|].
  intros t index Hin. apply in_map_iff in Hin.
  destruct Hin as (b & Hb & _). discriminate Hb.
Qed.

Lemma ascii_consults_no_table_witness :
  Forall (fun b => 0 <= b < 0x80) [0x75; 0x74; 0x66; 0x38] /\
  exists m,
    utf8.decode [0x75; 0x74; 0x66; 0x38] = Done m /\
    log m = map Read [0x75; 0x74; 0x66; 0x38] /\
    (forall t index, ~ In (Lookup t index) (log m)).
Proof.
  assert (H : Forall (fun b => 0 <= b < 0x80) [0x75; 0x74; 0x66; 0x38])
    by (repeat constructor; lia).
  split; [exact H | exact (ascii_consults_no_table _ H)].
Defined.

Lemma decoding_length (units out r : list Z) :
  decoding units out r -> (length r <= length units)%nat.
Proof.
  induction 1 as [|x rest r Hs|x rest cp r em r' Hs Hd IH]; simpl; [lia| |];
    destruct (sequence_consumes x rest) as (c & Hc & _);
    rewrite Hs in Hc; simpl in Hc;
    apply (f_equal (@length Z)) in Hc; simpl in Hc;
    rewrite length_app in Hc; lia.
Qed.

(** X11. decode always gets somewhere: on a non-empty input the returned
    position is at least 1, also when it stops on the very first code unit,
    so a caller that starts again at the returned position always has less
    input left. *)
Theorem decode_makes_progress (x : Z) (rest : list Z) :
  exists m,
    utf8.decode (x :: rest) = Done m /\
    (1 <= position (x :: rest) m)%nat /\
    (length (input m) <= length rest)%nat.
Proof.
  destruct (decode_decoding (x :: rest)) as (m & Hm & Hd & _).
  exists m. split; [exact Hm|].
  assert (Hlen : (length (input m) <= length rest)%nat).
  { inversion Hd as [|? ? ? Hs|? ? cp r em ? Hs Hd']; subst;
      destruct (sequence_consumes x rest) as (c & Hc & _);
      rewrite Hs in Hc; simpl in Hc;
      apply (f_equal (@length Z)) in Hc; simpl in Hc;
      rewrite length_app in Hc;
      [|pose proof (decoding_length _ _ _ Hd')]; lia. }
  split; [unfold position; simpl length; lia | exact Hlen].
Qed.
